(** * WeChat friends province map: loader and aggregator

    A shallow embedding of the script that reads a CSV export of contacts,
    extracts the province column, counts the provinces and hands the counts
    to a pyecharts [Map].

    Python values are modelled as follows.
    - [str] is a list of Unicode code points ([N]).
    - [int] is [Z].
    - A [dict] (and so a [Counter]) is an association list in insertion
      order, since [list(d.items())] exposes that order.
    - The csv reader is the finite sequence of outcomes of its [next]:
      rows, then either the end of the file or an exception.
    - [print] and [Map.render] append to a log of events.
    - A function body is a computation over its local variables and the
      log which either returns or raises. *)

From Stdlib Require Import List ZArith NArith Bool Lia Permutation.
Import ListNotations.

Set Implicit Arguments.

(** ** Strings *)

Module Str.

Definition char := N.
Definition str := list char.

Fixpoint eqb (a b : str) : bool :=
  match a, b with
  | [], [] => true
  | x :: a', y :: b' => N.eqb x y && eqb a' b'
  | _, _ => false
  end.

(** [str.isspace] on one code point: the code points whose general category
    is Zs or whose bidirectional class is WS, B or S. *)
Definition isspace (c : char) : bool :=
  (((0x09 <=? c) && (c <=? 0x0D))
   || ((0x1C <=? c) && (c <=? 0x20))
   || (c =? 0x85) || (c =? 0xA0) || (c =? 0x1680)
   || ((0x2000 <=? c) && (c <=? 0x200A))
   || (c =? 0x2028) || (c =? 0x2029) || (c =? 0x202F)
   || (c =? 0x205F) || (c =? 0x3000))%N.

(** [s.lstrip()] *)
Fixpoint lstrip (s : str) : str :=
  match s with
  | [] => []
  | c :: s' => if isspace c then lstrip s' else s
  end.

(** [s.rstrip()] *)
Definition rstrip (s : str) : str := rev (lstrip (rev s)).

(** [s.strip()] *)
Definition strip (s : str) : str := rstrip (lstrip s).

(** Truth value of a string: [bool(s)]. *)
Definition truthy (s : str) : bool :=
  match s with [] => false | _ :: _ => true end.

End Str.

Import Str.

(** ** Python lists indexed by an int *)

(** Exceptions the script can meet. All of them are instances of
    [Exception]; the first two have an [except] clause of their own. *)
Inductive exn : Type :=
| FileNotFoundError
| UnicodeDecodeError
| PermissionError
| IsADirectoryError
| OSError
| csv_Error
| IndexError
| ValueError.

Inductive result (A : Type) : Type :=
| Ok (a : A)
| Raise (e : exn).
Arguments Ok {A} a.
Arguments Raise {A} e.

Definition row := list str.

(** [row[i]]: a negative index counts from the end; out of range raises. *)
Definition getitem (r : row) (i : Z) : result str :=
  let n := Z.of_nat (length r) in
  if (0 <=? i)%Z && (i <? n)%Z then
    match nth_error r (Z.to_nat i) with
    | Some x => Ok x
    | None => Raise IndexError
    end
  else if (i <? 0)%Z && (- n <=? i)%Z then
    match nth_error r (Z.to_nat (n + i)) with
    | Some x => Ok x
    | None => Raise IndexError
    end
  else Raise IndexError.

(** ** Constants of the script *)

(** '我的微信好友信息.csv' *)
Definition CSV_FILENAME : str :=
  [0x6211; 0x7684; 0x5FAE; 0x4FE1; 0x597D; 0x53CB; 0x4FE1; 0x606F;
   0x2E; 0x63; 0x73; 0x76]%N.
Definition PROVINCE_COLUMN_INDEX : Z := 3.
(** '好友所在省份分布图.html' *)
Definition OUTPUT_HTML_FILENAME : str :=
  [0x597D; 0x53CB; 0x6240; 0x5728; 0x7701; 0x4EFD; 0x5206; 0x5E03; 0x56FE;
   0x2E; 0x68; 0x74; 0x6D; 0x6C]%N.
(** '微信好友省份分布图' *)
Definition MAP_TITLE : str :=
  [0x5FAE; 0x4FE1; 0x597D; 0x53CB; 0x7701; 0x4EFD; 0x5206; 0x5E03; 0x56FE]%N.
(** '数据来源：微信好友信息CSV文件' *)
Definition MAP_SUBTITLE : str :=
  [0x6570; 0x636E; 0x6765; 0x6E90; 0xFF1A; 0x5FAE; 0x4FE1; 0x597D; 0x53CB;
   0x4FE1; 0x606F; 0x43; 0x53; 0x56; 0x6587; 0x4EF6]%N.
(** '好友数量' *)
Definition SERIES_NAME : str := [0x597D; 0x53CB; 0x6570; 0x91CF]%N.

(** Literals used in [create_province_map]. *)
Module Lit.
(** '无有效数据' *)
Definition no_valid_data : str := [0x65E0; 0x6709; 0x6548; 0x6570; 0x636E]%N.
(** 'china' *)
Definition china : str := [0x63; 0x68; 0x69; 0x6E; 0x61]%N.
(** 'center' *)
Definition center : str := [0x63; 0x65; 0x6E; 0x74; 0x65; 0x72]%N.
(** '10%' *)
Definition ten_percent : str := [0x31; 0x30; 0x25]%N.
(** 'item' *)
Definition item : str := [0x69; 0x74; 0x65; 0x6D]%N.
(** '{b}: {c}' *)
Definition b_colon_c : str := [0x7B; 0x62; 0x7D; 0x3A; 0x20; 0x7B; 0x63; 0x7D]%N.
End Lit.

(** ** The pyecharts [Map] object, as far as the script configures it *)

Record Series : Type := {
  series_name : str;
  data_pair : list (str * Z);
  maptype : str;
  is_map_symbol_show : bool
}.

Record TitleOpts : Type := {
  title : str;
  subtitle : option str;
  title_pos_left : option str
}.

Record VisualMapOpts : Type := {
  max_ : Z;
  is_piecewise : bool;
  pos_left : str;
  pos_bottom : str
}.

Record TooltipOpts : Type := {
  trigger : str;
  formatter : str
}.

Record MapChart : Type := {
  series : list Series;             (* one entry per [.add] *)
  title_opts : option TitleOpts;
  visualmap_opts : option VisualMapOpts;
  tooltip_opts : option TooltipOpts;
  legend_is_show : option bool;     (* [LegendOpts(is_show=...)] *)
  label_is_show : option bool       (* [set_series_opts(label_opts=...)] *)
}.

(** [Map()] *)
Definition Map_new : MapChart :=
  {| series := []; title_opts := None; visualmap_opts := None;
     tooltip_opts := None; legend_is_show := None; label_is_show := None |}.

(** [.add(series_name=..., data_pair=..., maptype=..., is_map_symbol_show=...)] *)
Definition Map_add (s : Series) (m : MapChart) : MapChart :=
  {| series := series m ++ [s]; title_opts := title_opts m;
     visualmap_opts := visualmap_opts m; tooltip_opts := tooltip_opts m;
     legend_is_show := legend_is_show m; label_is_show := label_is_show m |}.

(** [.set_global_opts(...)]; only the options given are set. *)
Definition Map_set_global_opts
    (t : option TitleOpts) (v : option VisualMapOpts)
    (tt : option TooltipOpts) (lg : option bool) (m : MapChart) : MapChart :=
  {| series := series m; title_opts := t; visualmap_opts := v;
     tooltip_opts := tt; legend_is_show := lg;
     label_is_show := label_is_show m |}.

(** [.set_series_opts(label_opts=opts.LabelOpts(is_show=b))] *)
Definition Map_set_series_opts (b : bool) (m : MapChart) : MapChart :=
  {| series := series m; title_opts := title_opts m;
     visualmap_opts := visualmap_opts m; tooltip_opts := tooltip_opts m;
     legend_is_show := legend_is_show m; label_is_show := Some b |}.

(** ** Observable events *)

(** One constructor per [print] of the script, in source order. *)
Inductive msg : Type :=
| MsgNotExist (filename : str)        (* 错误：文件 '...' 不存在。 *)
| MsgSkipHeader (header : row)        (* 跳过表头: ... *)
| MsgNotFound (filename : str)        (* 错误：文件 '...' 未找到。 *)
| MsgDecodeError (filename : str)     (* 错误：无法使用 'utf-8-sig' 解码文件 ... *)
| MsgReadError (e : exn)              (* 读取CSV文件时发生错误: ... *)
| MsgNoValidData                      (* 警告：没有有效的省份数据可供绘图。 *)
| MsgStart                            (* 开始处理微信好友省份数据... *)
| MsgNoDataExit                       (* 未能加载到省份数据，程序退出。 *)
| MsgLoaded (n : nat)                 (* 成功加载 n 条原始省份记录。 *)
| MsgSaved (path : str)               (* 地图已成功生成并保存到: ... *)
| MsgRenderError (e : exn)            (* 渲染HTML文件时出错: ... *)
| MsgDone.                            (* 处理完成。 *)

Inductive event : Type :=
| Print (m : msg)
| Render (chart : MapChart) (path : str).

(** ** Computations: local variables, event log, exceptions *)

Record State (L : Type) : Type := { locals : L; out : list event }.

Definition M (L A : Type) : Type := State L -> State L * result A.

Definition ret {L A} (a : A) : M L A := fun s => (s, Ok a).

Definition bind {L A B} (m : M L A) (k : A -> M L B) : M L B :=
  fun s => match m s with
           | (s', Ok a) => k a s'
           | (s', Raise e) => (s', Raise e)
           end.

Definition raise {L A} (e : exn) : M L A := fun s => (s, Raise e).

Definition lift {L A} (r : result A) : M L A := fun s => (s, r).

Definition emit {L} (ev : event) : M L unit :=
  fun s => ({| locals := locals s; out := out s ++ [ev] |}, Ok tt).

Definition print {L} (m : msg) : M L unit := emit (Print m).

Definition get {L} : M L L := fun s => (s, Ok (locals s)).

Definition put {L} (l : L) : M L unit :=
  fun s => ({| locals := l; out := out s |}, Ok tt).

(** [try: body except ...: handler]; the handler sees the state the body
    left behind. *)
Definition try_except {L A} (body : M L A) (handler : exn -> M L A) : M L A :=
  fun s => match body s with
           | (s', Ok a) => (s', Ok a)
           | (s', Raise e) => handler e s'
           end.

(** A call: the callee runs on fresh locals and on the caller's log. *)
Definition call {L L' A} (init : L') (m : M L' A) : M L A :=
  fun s => let '(s', r) := m {| locals := init; out := out s |} in
           ({| locals := locals s; out := out s' |}, r).

Declare Scope py_scope.
Delimit Scope py_scope with py.
Notation "x <- c1 ;; c2" := (bind c1 (fun x => c2))
  (at level 100, c1 at next level, right associativity) : py_scope.
Notation "c1 ;; c2" := (bind c1 (fun _ => c2))
  (at level 100, right associativity) : py_scope.
Open Scope py_scope.

(** ** The environment *)

(** What the csv reader over an open file does on successive [next]s. *)
Inductive reader : Type :=
| REnd
| RRow (r : row) (rest : reader)
| RRaise (e : exn).

Record World : Type := {
  path_exists : str -> bool;                       (* [os.path.exists] *)
  open_file : str -> result reader;                (* [open] + [csv.reader] *)
  render_result : MapChart -> str -> option exn;   (* [Map.render] *)
  abspath : str -> str                             (* [os.path.abspath] *)
}.

(** ** load_province_data *)

(** [next(reader, None)] together with the reader that remains. *)
Definition next_or_none {L} (rd : reader) : M L (option row * reader) :=
  match rd with
  | REnd => ret (None, REnd)
  | RRow r rest => ret (Some r, rest)
  | RRaise e => raise e
  end.

(** Body of the [for row in reader] loop; the local is [provinces]. *)
Definition loop_body (column_index : Z) (r : row) : M (list str) unit :=
  if (Z.of_nat (length r) >? column_index)%Z then
    f <- lift (getitem r column_index) ;;
    let province := strip f in
    if truthy province then
      provinces <- get ;; put (provinces ++ [province])
    else ret tt
  else ret tt.

Fixpoint for_rows (rd : reader) (body : row -> M (list str) unit)
  : M (list str) unit :=
  match rd with
  | REnd => ret tt
  | RRow r rest => body r ;; for_rows rest body
  | RRaise e => raise e
  end.

Definition load_province_data (w : World) (filename : str) (column_index : Z)
  : M (list str) (list str) :=
  put [] ;;
  if negb (path_exists w filename) then
    print (MsgNotExist filename) ;;
    get
  else
    try_except
      (rd <- lift (open_file w filename) ;;
       hr <- next_or_none rd ;;
       let '(header, rd') := hr in
       match header with
       | Some ((_ :: _) as h) => print (MsgSkipHeader h)
       | _ => ret tt
       end ;;
       for_rows rd' (loop_body column_index))
      (fun e =>
         match e with
         | FileNotFoundError => print (MsgNotFound filename)
         | UnicodeDecodeError => print (MsgDecodeError filename)
         | _ => print (MsgReadError e)
         end) ;;
    get.

(** Running a function from an empty log. *)
Definition run {L A} (init : L) (m : M L A) : list event * result A :=
  let '(s, r) := m {| locals := init; out := [] |} in (out s, r).

(** ** Counter *)

Definition dict := list (str * Z).

(** [d.get(k, default)] *)
Fixpoint dict_get (d : dict) (k : str) (default : Z) : Z :=
  match d with
  | [] => default
  | (k', v) :: d' => if Str.eqb k' k then v else dict_get d' k default
  end.

(** [d[k] = v]: an existing key keeps its position, a new one goes last. *)
Fixpoint dict_set (d : dict) (k : str) (v : Z) : dict :=
  match d with
  | [] => [(k, v)]
  | (k', v') :: d' =>
      if Str.eqb k' k then (k', v) :: d' else (k', v') :: dict_set d' k v
  end.

(** [Counter.update] over an iterable: [self[elem] = self.get(elem, 0) + 1]. *)
Definition count_elements (d : dict) (l : list str) : dict :=
  fold_left (fun d elem => dict_set d elem (dict_get d elem 0 + 1)%Z) l d.

(** [Counter(l)] *)
Definition Counter (l : list str) : dict := count_elements [] l.

(** [list(d.items())] *)
Definition items (d : dict) : list (str * Z) := d.

(** [max(xs)]: the first greatest element; empty input raises. *)
Definition py_max (xs : list Z) : result Z :=
  match xs with
  | [] => Raise ValueError
  | x :: xs' => Ok (fold_left (fun m y => if (y >? m)%Z then y else m) xs' x)
  end.

(** ** create_province_map *)

(** [max(count for province, count in data_pair) if data_pair else 0] *)
Definition max_count_of (data_pair : list (str * Z)) : result Z :=
  match data_pair with
  | _ :: _ => py_max (map (fun '(province, count) => count) data_pair)
  | [] => Ok 0%Z
  end.

Definition create_province_map (province_list : list str) : M unit MapChart :=
  let province_counts := Counter province_list in
  let data_pair := items province_counts in
  match data_pair with
  | [] =>
      print MsgNoValidData ;;
      ret (Map_set_global_opts
             (Some {| title := Lit.no_valid_data; subtitle := None;
                      title_pos_left := None |})
             None None None Map_new)
  | _ :: _ =>
      max_count <- lift (max_count_of data_pair) ;;
      ret (Map_set_series_opts false
             (Map_set_global_opts
                (Some {| title := MAP_TITLE; subtitle := Some MAP_SUBTITLE;
                         title_pos_left := Some Lit.center |})
                (Some {| max_ := max_count + 1; is_piecewise := false;
                         pos_left := Lit.ten_percent;
                         pos_bottom := Lit.ten_percent |})
                (Some {| trigger := Lit.item; formatter := Lit.b_colon_c |})
                (Some false)
                (Map_add {| series_name := SERIES_NAME; data_pair := data_pair;
                            maptype := Lit.china;
                            is_map_symbol_show := false |}
                         Map_new)))
  end.

(** ** The main block *)

(** [chart.render(path=...)] *)
Definition render {L} (w : World) (chart : MapChart) (path : str) : M L unit :=
  emit (Render chart path) ;;
  match render_result w chart path with
  | None => ret tt
  | Some e => raise e
  end.

(** The main block with its three constants as parameters. *)
Definition main_with (w : World) (filename : str) (column_index : Z)
    (output : str) : M unit unit :=
  print MsgStart ;;
  province_data <- call [] (load_province_data w filename column_index) ;;
  match province_data with
  | [] => print MsgNoDataExit
  | _ :: _ =>
      print (MsgLoaded (length province_data)) ;;
      province_map <- call tt (create_province_map province_data) ;;
      try_except
        (render w province_map output ;;
         print (MsgSaved (abspath w output)))
        (fun e => print (MsgRenderError e))
  end ;;
  print MsgDone.

Definition main (w : World) : M unit unit :=
  main_with w CSV_FILENAME PROVINCE_COLUMN_INDEX OUTPUT_HTML_FILENAME.

(** The charts handed to [render] in a log. *)
Fixpoint rendered (t : list event) : list (MapChart * str) :=
  match t with
  | [] => []
  | Render c p :: t' => (c, p) :: rendered t'
  | Print _ :: t' => rendered t'
  end.

(** ** Reference definitions the claims are stated against *)

(** Rows a reader yields before it ends or raises. *)
Fixpoint rows_of (rd : reader) : list row :=
  match rd with
  | RRow r rest => r :: rows_of rest
  | _ => []
  end.

(** How a reader stops: [None] at the end of the file. *)
Fixpoint failure_of (rd : reader) : option exn :=
  match rd with
  | REnd => None
  | RRow _ rest => failure_of rest
  | RRaise e => Some e
  end.

(** The reader that yields [rows] and then stops as [stop] says. *)
Definition reader_of (rows : list row) (stop : option exn) : reader :=
  fold_right RRow (match stop with None => REnd | Some e => RRaise e end) rows.

(** The label a data row contributes, if any. *)
Definition label_of (field_index : nat) (r : row) : option str :=
  match nth_error r field_index with
  | None => None
  | Some f => match strip f with
              | [] => None
              | (_ :: _) as s => Some s
              end
  end.

(** Labels of a sequence of data rows, in row order. *)
Fixpoint labels_of (field_index : nat) (rows : list row) : list str :=
  match rows with
  | [] => []
  | r :: rows' =>
      match label_of field_index r with
      | Some s => s :: labels_of field_index rows'
      | None => labels_of field_index rows'
      end
  end.

Definition str_eq_dec : forall a b : str, {a = b} + {a <> b} :=
  list_eq_dec N.eq_dec.

(** Number of occurrences of a label in a sequence. *)
Definition freq (l : list str) (p : str) : Z :=
  Z.of_nat (count_occ str_eq_dec l p).

Definition keys (d : dict) : list str := map fst d.
Definition values (d : dict) : list Z := map snd d.
Definition sum (xs : list Z) : Z := fold_right Z.add 0%Z xs.

(** A file at [filename] that exists and opens on reader [rd]. *)
Definition opens (w : World) (filename : str) (rd : reader) : Prop :=
  path_exists w filename = true /\ open_file w filename = Ok rd.

(** A world with one file. *)
Definition single_file (name : str) (rd : reader) : World :=
  {| path_exists := fun p => Str.eqb p name;
     open_file := fun p => if Str.eqb p name then Ok rd
                           else Raise FileNotFoundError;
     render_result := fun _ _ => None;
     abspath := fun p => p |}.

(** A world with no file at all. *)
Definition empty_world : World :=
  {| path_exists := fun _ => false;
     open_file := fun _ => Raise FileNotFoundError;
     render_result := fun _ _ => None;
     abspath := fun p => p |}.

Module Sample.
(** "京" *)
Definition jing : str := [0x4EAC]%N.
(** "沪" *)
Definition hu : str := [0x6CAA]%N.
(** "省份" *)
Definition shengfen : str := [0x7701; 0x4EFD]%N.
Definition X : str := [0x58]%N.
Definition A : str := [0x41]%N.
Definition B : str := [0x42]%N.
Definition C : str := [0x43]%N.
Definition name : str := [0x61; 0x2E; 0x63; 0x73; 0x76]%N.  (* "a.csv" *)
Definition rows : list row :=
  [[shengfen; X]; [jing; A]; [hu; B]; [jing; C]].
End Sample.

(** The message the [except] clauses print for an exception. *)
Definition report (filename : str) (e : exn) : msg :=
  match e with
  | FileNotFoundError => MsgNotFound filename
  | UnicodeDecodeError => MsgDecodeError filename
  | _ => MsgReadError e
  end.

(** What a load over reader [rd] prints. *)
Definition loader_log (filename : str) (rd : reader) : list event :=
  match rd with
  | RRow ((_ :: _) as h) _ => [Print (MsgSkipHeader h)]
  | _ => []
  end ++
  match failure_of rd with
  | None => []
  | Some e => [Print (report filename e)]
  end.

(** A label: not empty, no white space at either end. *)
Definition is_label (s : str) : Prop :=
  s <> [] /\
  (forall c t, s = c :: t -> isspace c = false) /\
  (forall t c, s = t ++ [c] -> isspace c = false).

(** What one data row adds to [provinces]. *)
Definition contribution (field_index : nat) (r : row) : list str :=
  match label_of field_index r with Some s => [s] | None => [] end.

(** How the read loop ends for a reader that stops as [o] says. *)
Definition stop_result (o : option exn) : result unit :=
  match o with None => Ok tt | Some e => Raise e end.

(** A computation is [framed] when it treats the log it starts from as a
    prefix it never inspects. *)
Definition framed {L A} (m : M L A) : Prop :=
  forall l o,
    m {| locals := l; out := o |} =
    let '(s', r) := m {| locals := l; out := [] |} in
    ({| locals := locals s'; out := o ++ out s' |}, r).

(** A log with no [Render] in it. *)
Definition prints_only (t : list event) : Prop := rendered t = [].

(** A computation is [silent] when it renders nothing. *)
Definition silent {L A} (m : M L A) : Prop :=
  forall s, rendered (out (fst (m s))) = rendered (out s).

Create HintDb framed.
Create HintDb silent.

(** Closes a goal [exists s', (x, Ok l) = (s', Ok (locals s')) /\ P s']. *)
Ltac returns_locals tac :=
  match goal with
  | |- exists s', (?x, _) = (s', _) /\ _ =>
      exists x; split; [reflexivity | tac]
  end.

(** A string of white space only (the empty string included). *)
Definition blank (s : str) : Prop := Forall (fun c => isspace c = true) s.

(** The distinct elements of a sequence, each at its first occurrence. *)
Fixpoint first_occurrences (l : list str) : list str :=
  match l with
  | [] => []
  | x :: l' => x :: filter (fun y => negb (Str.eqb x y)) (first_occurrences l')
  end.

(** Membership test on keys. *)
Definition mem (ks : list str) (y : str) : bool := existsb (Str.eqb y) ks.

(** The label a row contributes when its field is the [k]-th from the end. *)
Definition label_from_end (k : nat) (r : row) : option str :=
  label_of (length r - k) r.

Fixpoint labels_from_end (k : nat) (rows : list row) : list str :=
  match rows with
  | [] => []
  | r :: rows' =>
      match label_from_end k r with
      | Some s => s :: labels_from_end k rows'
      | None => labels_from_end k rows'
      end
  end.

(** The message that closes the [try] around [render]. *)
Definition render_message (w : World) (chart : MapChart) (output : str) : msg :=
  match render_result w chart output with
  | None => MsgSaved (abspath w output)
  | Some e => MsgRenderError e
  end.

(** A world with one file in which [render] fails with [e]. *)
Definition failing_render (name : str) (rd : reader) (e : exn) : World :=
  {| path_exists := fun p => Str.eqb p name;
     open_file := fun p => if Str.eqb p name then Ok rd
                           else Raise FileNotFoundError;
     render_result := fun _ _ => Some e;
     abspath := fun p => p |}.

(** A world whose one path exists but cannot be opened. *)
Definition unopenable (name : str) (e : exn) : World :=
  {| path_exists := fun p => Str.eqb p name;
     open_file := fun _ => Raise e;
     render_result := fun _ _ => None;
     abspath := fun p => p |}.

(** What the loader prints for the header row [h]. *)
Definition header_events (h : row) : list event :=
  match h with
  | [] => []
  | _ :: _ => [Print (MsgSkipHeader h)]
  end.

(** * Properties *)

(** ** Strings *)

Lemma eqb_eq (a b : str) : Str.eqb a b = true <-> a = b.
Proof.
  revert b; induction a as [|x a IH]; intros [|y b]; simpl;
    try (split; congruence).
  rewrite andb_true_iff, N.eqb_eq, IH. split.
  - intros [-> ->]; reflexivity.
  - intros H; injection H; auto.
Qed.

Lemma eqb_refl (a : str) : Str.eqb a a = true.
Proof. apply eqb_eq; reflexivity. Qed.

Lemma eqb_neq (a b : str) : Str.eqb a b = false <-> a <> b.
Proof.
  rewrite <- eqb_eq. destruct (Str.eqb a b); split; congruence.
Qed.

Lemma lstrip_head (s : str) c t : lstrip s = c :: t -> isspace c = false.
Proof.
  induction s as [|x s IH]; simpl; [discriminate|].
  destruct (isspace x) eqn:E; auto.
  intros H; injection H as -> _; exact E.
Qed.

Lemma lstrip_suffix (s : str) : exists u, s = u ++ lstrip s.
Proof.
  induction s as [|x s [u IH]]; simpl.
  - exists []; reflexivity.
  - destruct (isspace x).
    + exists (x :: u); simpl; congruence.
    + exists []; reflexivity.
Qed.

Lemma rstrip_prefix (s : str) : exists u, s = rstrip s ++ u.
Proof.
  unfold rstrip. destruct (lstrip_suffix (rev s)) as [u H].
  exists (rev u). rewrite <- rev_app_distr, <- H, rev_involutive; reflexivity.
Qed.

Lemma rstrip_last (s : str) t c : rstrip s = t ++ [c] -> isspace c = false.
Proof.
  unfold rstrip; intros H.
  apply (f_equal (@rev _)) in H.
  rewrite rev_involutive, rev_app_distr in H; simpl in H.
  exact (lstrip_head _ H).
Qed.

Lemma strip_head (s : str) c t : strip s = c :: t -> isspace c = false.
Proof.
  unfold strip; intros H.
  destruct (rstrip_prefix (lstrip s)) as [u Hu].
  rewrite H in Hu; simpl in Hu.
  exact (lstrip_head _ Hu).
Qed.

Lemma strip_is_label (s : str) : truthy (strip s) = true -> is_label (strip s).
Proof.
  intros H; repeat split.
  - intros E; rewrite E in H; discriminate.
  - intros c t; apply strip_head.
  - intros t c; unfold strip; apply rstrip_last.
Qed.

(** ** The read loop at a zero-based index *)

Section ZeroBasedIndex.

Variable ci : Z.
Hypothesis ci_nonneg : (0 <= ci)%Z.

Lemma getitem_in_range (r : row) :
  (Z.of_nat (length r) >? ci)%Z = true ->
  exists f, nth_error r (Z.to_nat ci) = Some f /\ getitem r ci = Ok f.
Proof.
  intros Hlen. apply Z.gtb_lt in Hlen.
  destruct (nth_error r (Z.to_nat ci)) as [f|] eqn:E.
  - exists f; split; [reflexivity|]. unfold getitem.
    replace (0 <=? ci)%Z with true by (symmetry; apply Z.leb_le; lia).
    replace (ci <? Z.of_nat (length r))%Z with true
      by (symmetry; apply Z.ltb_lt; lia).
    simpl; rewrite E; reflexivity.
  - apply nth_error_None in E; lia.
Qed.

Lemma getitem_short (r : row) :
  (Z.of_nat (length r) >? ci)%Z = false ->
  nth_error r (Z.to_nat ci) = None.
Proof.
  intros Hlen. apply nth_error_None.
  destruct (Z.gtb_spec (Z.of_nat (length r)) ci); [discriminate | lia].
Qed.

Lemma labels_of_cons (i : nat) (r : row) (rows : list row) :
  labels_of i (r :: rows) = contribution i r ++ labels_of i rows.
Proof. unfold contribution; simpl; destruct (label_of i r); reflexivity. Qed.

Lemma loop_body_spec (r : row) (s : State (list str)) :
  loop_body ci r s =
  ({| locals := locals s ++ contribution (Z.to_nat ci) r; out := out s |},
   Ok tt).
Proof.
  unfold loop_body, contribution, label_of.
  destruct (Z.of_nat (length r) >? ci)%Z eqn:Hlen.
  - destruct (getitem_in_range r Hlen) as (f & Hnth & Hget).
    rewrite Hnth, Hget. unfold bind, lift, get, put, ret; simpl.
    destruct (strip f); simpl; [|reflexivity].
    destruct s; simpl; rewrite app_nil_r; reflexivity.
  - rewrite (getitem_short r Hlen). unfold ret.
    destruct s; simpl; rewrite app_nil_r; reflexivity.
Qed.

Lemma for_rows_spec (rd : reader) :
  forall s,
    for_rows rd (loop_body ci) s =
    ({| locals := locals s ++ labels_of (Z.to_nat ci) (rows_of rd);
        out := out s |},
     stop_result (failure_of rd)).
Proof.
  induction rd as [|r rest IH|e]; intros s.
  - simpl. unfold ret. destruct s; simpl; rewrite app_nil_r; reflexivity.
  - cbn [for_rows rows_of failure_of]. unfold bind.
    rewrite (loop_body_spec r s), IH, labels_of_cons; cbn [locals out].
    rewrite app_assoc. reflexivity.
  - simpl. unfold raise. destruct s; simpl; rewrite app_nil_r; reflexivity.
Qed.

(** The whole load over a file that exists and opens. *)
Lemma load_opens (w : World) (filename : str) (rd : reader) :
  opens w filename rd ->
  run [] (load_province_data w filename ci) =
  (loader_log filename rd,
   Ok (labels_of (Z.to_nat ci) (tl (rows_of rd)))).
Proof.
  intros [Hex Hop].
  unfold run, load_province_data, bind, put, try_except, lift, get.
  rewrite Hex, Hop; simpl.
  destruct rd as [|h rest|e].
  - reflexivity.
  - cbn [next_or_none ret]. unfold loader_log; cbn [failure_of rows_of tl].
    destruct h as [|x h]; unfold ret, print, emit, bind; simpl;
      rewrite (for_rows_spec rest); simpl;
      destruct (failure_of rest) as [[]|]; reflexivity.
  - destruct e; reflexivity.
Qed.

(** A decode failure is reported, and the labels read before it are kept. *)
Lemma load_decode_error (w : World) (filename : str) (rd : reader) :
  opens w filename rd -> failure_of rd = Some UnicodeDecodeError ->
  exists log,
    run [] (load_province_data w filename ci) =
    (log ++ [Print (MsgDecodeError filename)],
     Ok (labels_of (Z.to_nat ci) (tl (rows_of rd)))).
Proof.
  intros Hop Hfail. rewrite (load_opens Hop).
  unfold loader_log; rewrite Hfail. eexists; reflexivity.
Qed.

End ZeroBasedIndex.


(** A file that exists but fails to open. *)
Lemma load_open_fails (w : World) (filename : str) (ci : Z) (e : exn) :
  path_exists w filename = true -> open_file w filename = Raise e ->
  run [] (load_province_data w filename ci) =
  ([Print (report filename e)], Ok []).
Proof.
  intros Hex Hop.
  unfold run, load_province_data, bind, put, try_except, lift, get.
  rewrite Hex, Hop; simpl. destruct e; reflexivity.
Qed.

(** ** What holds of every load, whatever the index *)

Lemma loop_body_labels (ci : Z) (r : row) (s : State (list str)) :
  Forall is_label (locals s) ->
  Forall is_label (locals (fst (loop_body ci r s))).
Proof.
  intros H. unfold loop_body.
  destruct (Z.of_nat (length r) >? ci)%Z; [|exact H].
  unfold bind, lift. destruct (getitem r ci) as [f|e]; [|exact H].
  destruct (truthy (strip f)) eqn:E; [|exact H].
  simpl. apply Forall_app; split; [exact H|].
  constructor; [apply strip_is_label; exact E | constructor].
Qed.

Lemma for_rows_labels (ci : Z) (rd : reader) :
  forall s, Forall is_label (locals s) ->
            Forall is_label (locals (fst (for_rows rd (loop_body ci) s))).
Proof.
  induction rd as [|r rest IH|e]; intros s H; simpl; auto.
  unfold bind.
  pose proof (loop_body_labels ci r s H) as H1.
  destruct (loop_body ci r s) as [s1 [[]|e]]; simpl in *; auto.
Qed.

(** Every load returns its local [provinces], and these are labels. *)
Lemma load_returns (w : World) (filename : str) (ci : Z) s :
  exists s', load_province_data w filename ci s = (s', Ok (locals s')) /\
             Forall is_label (locals s').
Proof.
  unfold load_province_data, bind, put, get; simpl.
  destruct (path_exists w filename); simpl.
  - unfold try_except, bind, lift.
    destruct (open_file w filename) as [rd|e].
    + set (s0 := {| locals := @nil str; out := out s |}).
      assert (H0 : Forall is_label (locals s0)) by constructor.
      destruct rd as [|h rest|e]; simpl.
      * returns_locals ltac:(exact H0).
      * set (s1 := fst (match h with
                        | [] => ret tt
                        | _ :: _ => print (MsgSkipHeader h)
                        end s0)).
        assert (H1 : Forall is_label (locals s1))
          by (subst s1; destruct h; exact H0).
        assert (E1 : match h with
                     | [] => ret tt
                     | _ :: _ => print (MsgSkipHeader h)
                     end s0 = (s1, Ok tt))
          by (subst s1; destruct h; reflexivity).
        rewrite E1.
        pose proof (for_rows_labels ci rest s1 H1) as H2.
        destruct (for_rows rest (loop_body ci) s1) as [s2 [[]|e]];
          simpl in H2.
        -- returns_locals ltac:(exact H2).
        -- destruct e; simpl; returns_locals ltac:(exact H2).
      * destruct e; simpl; returns_locals ltac:(exact H0).
    + destruct e; simpl; returns_locals ltac:(constructor).
  - returns_locals ltac:(constructor).
Qed.

(** ** Dictionaries and Counter *)

Lemma eqb_case (a b : str) : {a = b /\ Str.eqb a b = true} +
                             {a <> b /\ Str.eqb a b = false}.
Proof.
  destruct (Str.eqb a b) eqn:E.
  - left; split; [apply eqb_eq; exact E | reflexivity].
  - right; split; [apply eqb_neq; exact E | reflexivity].
Qed.

Lemma dict_get_set_same (d : dict) k v dflt :
  dict_get (dict_set d k v) k dflt = v.
Proof.
  induction d as [|[k0 v0] d IH]; simpl.
  - rewrite eqb_refl; reflexivity.
  - destruct (eqb_case k0 k) as [[-> E]|[N E]]; rewrite E; simpl; rewrite E;
      auto.
Qed.

Lemma dict_get_set_other (d : dict) k v k' dflt :
  k <> k' -> dict_get (dict_set d k v) k' dflt = dict_get d k' dflt.
Proof.
  intros N. induction d as [|[k0 v0] d IH]; simpl.
  - apply eqb_neq in N; rewrite N; reflexivity.
  - destruct (eqb_case k0 k) as [[-> E]|[N0 E]]; rewrite E; simpl.
    + apply eqb_neq in N; rewrite N; reflexivity.
    + rewrite IH; reflexivity.
Qed.

Lemma keys_set_in (d : dict) k v : In k (keys d) -> keys (dict_set d k v) = keys d.
Proof.
  induction d as [|[k0 v0] d IH]; simpl; [tauto|].
  intros H. destruct (eqb_case k0 k) as [[-> E]|[N E]]; rewrite E; simpl.
  - reflexivity.
  - f_equal; apply IH; destruct H; [contradiction | assumption].
Qed.

Lemma keys_set_notin (d : dict) k v :
  ~ In k (keys d) -> keys (dict_set d k v) = keys d ++ [k].
Proof.
  induction d as [|[k0 v0] d IH]; simpl; [reflexivity|].
  intros H. destruct (eqb_case k0 k) as [[-> E]|[N E]]; rewrite E; simpl.
  - tauto.
  - f_equal; apply IH; tauto.
Qed.

Lemma keys_set_iff (d : dict) k v p :
  In p (keys (dict_set d k v)) <-> In p (keys d) \/ p = k.
Proof.
  destruct (in_dec str_eq_dec k (keys d)) as [H|H].
  - rewrite (@keys_set_in d k v H). split; [tauto|].
    intros [?| ->]; assumption.
  - rewrite (@keys_set_notin d k v H), in_app_iff; simpl.
    intuition congruence.
Qed.

Lemma keys_set_NoDup (d : dict) k v :
  NoDup (keys d) -> NoDup (keys (dict_set d k v)).
Proof.
  intros ND. destruct (in_dec str_eq_dec k (keys d)) as [H|H].
  - rewrite (@keys_set_in d k v H); exact ND.
  - rewrite (@keys_set_notin d k v H).
    apply NoDup_rev in ND. rewrite <- (rev_involutive (keys d ++ [k])).
    apply NoDup_rev. rewrite rev_app_distr; simpl.
    constructor; [rewrite <- in_rev; exact H | exact ND].
Qed.

Lemma sum_values_set (d : dict) k v :
  sum (values (dict_set d k v)) = (sum (values d) - dict_get d k 0 + v)%Z.
Proof.
  induction d as [|[k0 v0] d IH]; simpl.
  - lia.
  - destruct (Str.eqb k0 k); simpl; [lia | rewrite IH; lia].
Qed.

Lemma dict_get_in (d : dict) p c dflt :
  NoDup (keys d) -> In (p, c) d -> dict_get d p dflt = c.
Proof.
  induction d as [|[k0 v0] d IH]; simpl; [tauto|].
  intros ND [H|H].
  - injection H as -> ->. rewrite eqb_refl; reflexivity.
  - inversion ND as [|? ? Hk ND']; subst.
    destruct (eqb_case k0 p) as [[-> E]|[N E]]; rewrite E.
    + exfalso; apply Hk. change p with (fst (p, c)). apply in_map; exact H.
    + apply IH; assumption.
Qed.

Lemma in_dict_get (d : dict) p dflt :
  In p (keys d) -> In (p, dict_get d p dflt) d.
Proof.
  induction d as [|[k0 v0] d IH]; simpl; [tauto|].
  intros H. destruct (eqb_case k0 p) as [[-> E]|[N E]]; rewrite E.
  - left; reflexivity.
  - right; apply IH; destruct H; [contradiction | assumption].
Qed.

Lemma freq_cons (x : str) (l : list str) (p : str) :
  freq (x :: l) p = ((if Str.eqb x p then 1 else 0) + freq l p)%Z.
Proof.
  unfold freq. destruct (eqb_case x p) as [[-> E]|[N E]]; rewrite E.
  - rewrite count_occ_cons_eq by reflexivity. lia.
  - rewrite count_occ_cons_neq by assumption. lia.
Qed.

Lemma freq_pos (l : list str) (p : str) : In p l <-> (1 <= freq l p)%Z.
Proof.
  unfold freq. rewrite (count_occ_In str_eq_dec). lia.
Qed.

Lemma count_elements_get (l : list str) :
  forall d p,
    dict_get (count_elements d l) p 0 = (dict_get d p 0 + freq l p)%Z.
Proof.
  induction l as [|x l IH]; intros d p.
  - unfold freq; simpl; lia.
  - change (count_elements d (x :: l))
      with (count_elements (dict_set d x (dict_get d x 0 + 1)) l).
    rewrite IH, freq_cons.
    destruct (eqb_case x p) as [[-> E]|[N E]]; rewrite E.
    + rewrite dict_get_set_same; lia.
    + rewrite dict_get_set_other by assumption; lia.
Qed.

Lemma count_elements_keys (l : list str) :
  forall d p, In p (keys (count_elements d l)) <-> In p (keys d) \/ In p l.
Proof.
  induction l as [|x l IH]; intros d p.
  - simpl; tauto.
  - change (count_elements d (x :: l))
      with (count_elements (dict_set d x (dict_get d x 0 + 1)) l).
    rewrite IH, keys_set_iff; simpl. intuition congruence.
Qed.

Lemma count_elements_NoDup (l : list str) :
  forall d, NoDup (keys d) -> NoDup (keys (count_elements d l)).
Proof.
  induction l as [|x l IH]; intros d ND; [exact ND|].
  apply IH, keys_set_NoDup, ND.
Qed.

Lemma count_elements_sum (l : list str) :
  forall d, sum (values (count_elements d l)) =
            (sum (values d) + Z.of_nat (length l))%Z.
Proof.
  induction l as [|x l IH]; intros d.
  - simpl; lia.
  - change (count_elements d (x :: l))
      with (count_elements (dict_set d x (dict_get d x 0 + 1)) l).
    rewrite IH, sum_values_set. simpl length. lia.
Qed.

Lemma Counter_NoDup (l : list str) : NoDup (keys (Counter l)).
Proof. apply count_elements_NoDup; constructor. Qed.

Lemma Counter_keys (l : list str) (p : str) : In p (keys (Counter l)) <-> In p l.
Proof. unfold Counter; rewrite count_elements_keys; simpl; tauto. Qed.

Lemma Counter_get (l : list str) (p : str) :
  dict_get (Counter l) p 0 = freq l p.
Proof. unfold Counter; rewrite count_elements_get; reflexivity. Qed.

Lemma Counter_entries (l : list str) (p : str) (c : Z) :
  In (p, c) (Counter l) <-> In p l /\ c = freq l p.
Proof.
  split.
  - intros H; split.
    + apply Counter_keys. change p with (fst (p, c)); apply in_map; exact H.
    + rewrite <- Counter_get. symmetry.
      apply dict_get_in; [apply Counter_NoDup | exact H].
  - intros [H ->]. rewrite <- Counter_get.
    apply in_dict_get, Counter_keys, H.
Qed.

Lemma NoDup_keys_NoDup (d : dict) : NoDup (keys d) -> NoDup d.
Proof.
  induction d as [|[k v] d IH]; intros ND; [constructor|].
  inversion ND as [|? ? Hk ND']; subst. constructor; [|auto].
  intros H; apply Hk. change k with (fst (k, v)); apply in_map; exact H.
Qed.

Lemma Counter_nonempty (l : list str) : l <> [] -> Counter l <> [].
Proof.
  destruct l as [|x l]; [congruence|]. intros _ E.
  assert (H : In x (keys (Counter (x :: l))))
    by (apply Counter_keys; left; reflexivity).
  rewrite E in H; exact H.
Qed.

(** ** max *)

Lemma fold_max_spec (xs : list Z) :
  forall x, let m := fold_left (fun m y => if (y >? m)%Z then y else m) xs x in
            In m (x :: xs) /\ Forall (fun y => (y <= m)%Z) (x :: xs).
Proof.
  induction xs as [|y xs IH]; intros x m; subst m.
  - simpl; split; [auto | repeat constructor; lia].
  - cbn [fold_left].
    destruct (IH (if (y >? x)%Z then y else x)) as [Hin Hall].
    inversion Hall as [|? ? Hle Hall']; subst.
    destruct (Z.gtb_spec y x).
    + split; [right; exact Hin|].
      constructor; [lia | constructor; assumption].
    + split; [destruct Hin; [left | right; right]; assumption|].
      constructor; [assumption | constructor; [lia | assumption]].
Qed.

Lemma py_max_spec (xs : list Z) :
  xs <> [] ->
  exists m, py_max xs = Ok m /\ In m xs /\ Forall (fun y => (y <= m)%Z) xs.
Proof.
  destruct xs as [|x xs]; [congruence|]. intros _.
  eexists; split; [reflexivity | apply fold_max_spec].
Qed.

Lemma max_count_of_spec (d : dict) :
  d <> [] ->
  exists m, max_count_of d = Ok m /\ In m (values d) /\
            Forall (fun y => (y <= m)%Z) (values d).
Proof.
  intros H. unfold max_count_of.
  replace (map (fun '(_, count) => count) d) with (values d)
    by (unfold values; apply map_ext; intros []; reflexivity).
  destruct (py_max_spec (xs := values d)) as (m & Hm & Hin & Hall).
  - destruct d; [congruence | discriminate].
  - exists m. destruct d; [congruence | auto].
Qed.

(** ** The log only grows, and only the log's past is irrelevant *)

Lemma framed_ret {L A} (a : A) : framed (@ret L A a).
Proof. intros l o; simpl; rewrite app_nil_r; reflexivity. Qed.

Lemma framed_raise {L A} (e : exn) : framed (@raise L A e).
Proof. intros l o; simpl; rewrite app_nil_r; reflexivity. Qed.

Lemma framed_lift {L A} (r : result A) : framed (@lift L A r).
Proof. intros l o; simpl; rewrite app_nil_r; reflexivity. Qed.

Lemma framed_emit {L} (ev : event) : framed (@emit L ev).
Proof. intros l o; reflexivity. Qed.

Lemma framed_print {L} (m : msg) : framed (@print L m).
Proof. apply framed_emit. Qed.

Lemma framed_get {L} : framed (@get L).
Proof. intros l o; simpl; rewrite app_nil_r; reflexivity. Qed.

Lemma framed_put {L} (x : L) : framed (put x).
Proof. intros l o; simpl; rewrite app_nil_r; reflexivity. Qed.

Lemma framed_bind {L A B} (m : M L A) (k : A -> M L B) :
  framed m -> (forall a, framed (k a)) -> framed (bind m k).
Proof.
  intros Hm Hk l o. unfold bind. rewrite (Hm l o).
  destruct (m {| locals := l; out := [] |}) as [[l1 o1] [a|e]]; simpl.
  - rewrite (Hk a l1 (o ++ o1)), (Hk a l1 o1).
    destruct (k a {| locals := l1; out := [] |}) as [[l2 o2] r]; simpl.
    rewrite app_assoc; reflexivity.
  - reflexivity.
Qed.

Lemma framed_try_except {L A} (m : M L A) (h : exn -> M L A) :
  framed m -> (forall e, framed (h e)) -> framed (try_except m h).
Proof.
  intros Hm Hh l o. unfold try_except. rewrite (Hm l o).
  destruct (m {| locals := l; out := [] |}) as [[l1 o1] [a|e]]; simpl.
  - reflexivity.
  - rewrite (Hh e l1 (o ++ o1)), (Hh e l1 o1).
    destruct (h e {| locals := l1; out := [] |}) as [[l2 o2] r]; simpl.
    rewrite app_assoc; reflexivity.
Qed.

Lemma framed_call {L L' A} (init : L') (m : M L' A) :
  framed m -> framed (@call L L' A init m).
Proof.
  intros Hm l o. unfold call; simpl. rewrite (Hm init o).
  destruct (m {| locals := init; out := [] |}) as [[l1 o1] r]; reflexivity.
Qed.

#[export] Hint Resolve framed_ret framed_raise framed_lift framed_emit
  framed_print framed_get framed_put framed_bind framed_try_except
  framed_call : framed.

Lemma framed_loop_body (ci : Z) (r : row) : framed (loop_body ci r).
Proof.
  unfold loop_body.
  destruct (Z.of_nat (length r) >? ci)%Z; auto with framed.
  apply framed_bind; auto with framed.
  intros f; destruct (truthy (strip f)); auto with framed.
Qed.

Lemma framed_for_rows (ci : Z) (rd : reader) :
  framed (for_rows rd (loop_body ci)).
Proof.
  induction rd as [|r rest IH|e]; simpl; auto with framed.
  apply framed_bind; [apply framed_loop_body | intros _; exact IH].
Qed.

Lemma framed_load (w : World) (filename : str) (ci : Z) :
  framed (load_province_data w filename ci).
Proof.
  unfold load_province_data.
  apply framed_bind; auto with framed. intros _.
  destruct (negb (path_exists w filename)); auto with framed.
  apply framed_bind; auto with framed.
  apply framed_try_except.
  - apply framed_bind; auto with framed. intros rd.
    apply framed_bind.
    + destruct rd; simpl; auto with framed.
    + intros [header rd']. apply framed_bind.
      * destruct header as [[|]|]; auto with framed.
      * intros _; apply framed_for_rows.
  - intros e; destruct e; auto with framed.
Qed.

(** A call of the loader from any log, in terms of [run]. *)
Lemma call_load (w : World) (filename : str) (ci : Z) (L : Type) (s : State L) :
  call [] (load_province_data w filename ci) s =
  ({| locals := locals s;
      out := out s ++ fst (run [] (load_province_data w filename ci)) |},
   snd (run [] (load_province_data w filename ci))).
Proof.
  unfold call, run. rewrite (framed_load w filename ci [] (out s)).
  destruct (load_province_data w filename ci {| locals := []; out := [] |})
    as [[l1 o1] r]; reflexivity.
Qed.

Lemma rendered_app (a b : list event) : rendered (a ++ b) = rendered a ++ rendered b.
Proof.
  induction a as [|[m|c p] a IH]; simpl; [reflexivity | exact IH |].
  rewrite IH; reflexivity.
Qed.

Lemma silent_bind {L A B} (m : M L A) (k : A -> M L B) :
  silent m -> (forall a, silent (k a)) -> silent (bind m k).
Proof.
  intros Hm Hk s. unfold bind. specialize (Hm s).
  destruct (m s) as [s1 [a|e]]; simpl in *; [|exact Hm].
  rewrite (Hk a s1); exact Hm.
Qed.

Lemma silent_try_except {L A} (m : M L A) (h : exn -> M L A) :
  silent m -> (forall e, silent (h e)) -> silent (try_except m h).
Proof.
  intros Hm Hh s. unfold try_except. specialize (Hm s).
  destruct (m s) as [s1 [a|e]]; simpl in *; [exact Hm|].
  rewrite (Hh e s1); exact Hm.
Qed.

Lemma silent_print {L} (m : msg) : silent (@print L m).
Proof.
  intros s; simpl. rewrite rendered_app; simpl; apply app_nil_r.
Qed.

Lemma silent_pure {L A} (m : M L A) :
  (forall s, out (fst (m s)) = out s) -> silent m.
Proof. intros H s; rewrite H; reflexivity. Qed.

#[export] Hint Resolve silent_bind silent_try_except silent_print : silent.
#[export] Hint Extern 2 (silent _) =>
  (apply silent_pure; intros; reflexivity) : silent.

Lemma silent_loop_body (ci : Z) (r : row) : silent (loop_body ci r).
Proof.
  unfold loop_body.
  destruct (Z.of_nat (length r) >? ci)%Z; auto with silent.
  apply silent_bind; auto with silent.
  intros f; destruct (truthy (strip f)); auto with silent.
Qed.

Lemma silent_for_rows (ci : Z) (rd : reader) :
  silent (for_rows rd (loop_body ci)).
Proof.
  induction rd as [|r rest IH|e]; simpl; auto with silent.
  apply silent_bind; [apply silent_loop_body | intros _; exact IH].
Qed.

Lemma silent_load (w : World) (filename : str) (ci : Z) :
  silent (load_province_data w filename ci).
Proof.
  unfold load_province_data.
  apply silent_bind; auto with silent. intros _.
  destruct (negb (path_exists w filename)); auto with silent.
  apply silent_bind; auto with silent.
  apply silent_try_except.
  - apply silent_bind; auto with silent. intros rd.
    apply silent_bind.
    + destruct rd; simpl; auto with silent.
    + intros [header rd']. apply silent_bind.
      * destruct header as [[|]|]; auto with silent.
      * intros _; apply silent_for_rows.
  - intros e; destruct e; auto with silent.
Qed.

Lemma load_prints_only (w : World) (filename : str) (ci : Z) :
  prints_only (fst (run [] (load_province_data w filename ci))).
Proof.
  unfold prints_only, run.
  pose proof (silent_load w filename ci {| locals := []; out := [] |}) as H.
  destruct (load_province_data w filename ci {| locals := []; out := [] |});
    exact H.
Qed.

(** * The claims *)



(** C2. For a non-empty label sequence, [create_province_map] returns a chart
    with one series whose pairs are the items of the counter of the sequence:
    a pair [(p, c)] is among them exactly when [p] occurs in the sequence and
    [c] is its number of occurrences, and no pair is repeated. The scale
    bound is a count that occurs and that no count exceeds, and the
    renderer's [max_] is that bound plus 1. *)
Theorem aggregator_pairs_and_scale_bound (l : list str) :
  l <> [] ->
  exists chart pairs bound,
    run tt (create_province_map l) = ([], Ok chart) /\
    series chart = [ {| series_name := SERIES_NAME; data_pair := pairs;
                        maptype := Lit.china; is_map_symbol_show := false |} ] /\
    pairs = items (Counter l) /\
    NoDup pairs /\
    (forall p c, In (p, c) pairs <-> In p l /\ c = freq l p) /\
    max_count_of pairs = Ok bound /\
    (exists p, In p l /\ freq l p = bound) /\
    (forall p, In p l -> (freq l p <= bound)%Z) /\
    option_map max_ (visualmap_opts chart) = Some (bound + 1)%Z.
Proof.
  intros Hl.
  pose proof (Counter_nonempty Hl) as Hne.
  destruct (max_count_of_spec Hne) as (m & Hm & Hin & Hall).
  unfold create_province_map, run, items, bind, lift, ret.
  destruct (Counter l) as [|kv d] eqn:E; [congruence|].
  rewrite Hm; simpl.
  eexists; exists (kv :: d), m.
  split; [reflexivity|]. split; [reflexivity|]. split; [reflexivity|].
  rewrite <- E in *.
  split; [apply NoDup_keys_NoDup, Counter_NoDup|].
  split; [intros p c; apply Counter_entries|].
  split; [exact Hm|].
  split; [|split; [|reflexivity]].
  - unfold values in Hin. apply in_map_iff in Hin.
    destruct Hin as ([p c] & Hc & Hpc); simpl in Hc; subst c.
    apply Counter_entries in Hpc. exists p; destruct Hpc; split; auto.
  - intros p Hp. rewrite Forall_forall in Hall. apply Hall.
    unfold values. apply in_map_iff. exists (p, freq l p); split; auto.
    apply Counter_entries; auto.
Qed.

Lemma aggregator_pairs_and_scale_bound_witness :
  exists chart pairs bound,
    run tt (create_province_map [Sample.jing; Sample.hu; Sample.jing]) =
      ([], Ok chart) /\
    series chart = [ {| series_name := SERIES_NAME; data_pair := pairs;
                        maptype := Lit.china; is_map_symbol_show := false |} ] /\
    pairs = items (Counter [Sample.jing; Sample.hu; Sample.jing]) /\
    NoDup pairs /\
    (forall p c, In (p, c) pairs <->
                 In p [Sample.jing; Sample.hu; Sample.jing] /\
                 c = freq [Sample.jing; Sample.hu; Sample.jing] p) /\
    max_count_of pairs = Ok bound /\
    (exists p, In p [Sample.jing; Sample.hu; Sample.jing] /\
               freq [Sample.jing; Sample.hu; Sample.jing] p = bound) /\
    (forall p, In p [Sample.jing; Sample.hu; Sample.jing] ->
               (freq [Sample.jing; Sample.hu; Sample.jing] p <= bound)%Z) /\
    option_map max_ (visualmap_opts chart) = Some (bound + 1)%Z.
Proof.
  apply (@aggregator_pairs_and_scale_bound
           [Sample.jing; Sample.hu; Sample.jing]).
  discriminate.
Defined.

(** C3. At a file whose first rows decode and whose later bytes do not, the
    loader reports the decode error and returns the labels read so far, not
    the empty list its docstring promises for a read error. *)
Theorem decode_error_midway_returns_partial_labels :
  let rd := reader_of Sample.rows (Some UnicodeDecodeError) in
  opens (single_file Sample.name rd) Sample.name rd /\
  run [] (load_province_data (single_file Sample.name rd) Sample.name 0) =
  ([Print (MsgSkipHeader [Sample.shengfen; Sample.X]);
    Print (MsgDecodeError Sample.name)],
   Ok [Sample.jing; Sample.hu; Sample.jing]) /\
  snd (run [] (load_province_data (single_file Sample.name rd) Sample.name 0))
  <> Ok [].
Proof.
  intros rd; split; [split; reflexivity|]. split; [reflexivity|].
  discriminate.
Qed.

(** C4. When the reader of an open file raises an exception other than
    [FileNotFoundError] and [UnicodeDecodeError], the loader prints the read
    error after whatever it printed for the header and returns the labels of
    the rows read before the failure; with no data row read that is the empty
    list. The outcome is a return, not a raise. *)
Theorem read_error_returns_partial_labels
    (w : World) (filename : str) (column_index : Z) (rd : reader) (e : exn) :
  opens w filename rd -> (0 <= column_index)%Z ->
  failure_of rd = Some e ->
  e <> FileNotFoundError -> e <> UnicodeDecodeError ->
  exists log,
    run [] (load_province_data w filename column_index) =
    (log ++ [Print (MsgReadError e)],
     Ok (labels_of (Z.to_nat column_index) (tl (rows_of rd)))) /\
    (forall m, In (Print m) log -> exists h, m = MsgSkipHeader h) /\
    (tl (rows_of rd) = [] ->
     snd (run [] (load_province_data w filename column_index)) = Ok []).
Proof.
  intros Hop Hci Hfail Hnf Hnd.
  rewrite (load_opens Hci Hop).
  unfold loader_log. rewrite Hfail.
  replace (report filename e) with (MsgReadError e)
    by (destruct e; try reflexivity; congruence).
  eexists; split; [reflexivity|]. split.
  - intros m Hin. destruct rd as [|[|x h] rest|]; simpl in Hin; try tauto.
    destruct Hin as [Hin|[]]. injection Hin as <-. eexists; reflexivity.
  - intros Hnil; simpl; rewrite Hnil; reflexivity.
Qed.

Lemma read_error_returns_partial_labels_witness :
  exists log,
    run [] (load_province_data
              (single_file Sample.name (reader_of Sample.rows (Some OSError)))
              Sample.name 0) =
    (log ++ [Print (MsgReadError OSError)],
     Ok (labels_of (Z.to_nat 0)
           (tl (rows_of (reader_of Sample.rows (Some OSError)))))) /\
    (forall m, In (Print m) log -> exists h, m = MsgSkipHeader h) /\
    (tl (rows_of (reader_of Sample.rows (Some OSError))) = [] ->
     snd (run [] (load_province_data
              (single_file Sample.name (reader_of Sample.rows (Some OSError)))
              Sample.name 0)) = Ok []).
Proof.
  apply (@read_error_returns_partial_labels
           (single_file Sample.name (reader_of Sample.rows (Some OSError)))
           Sample.name 0%Z (reader_of Sample.rows (Some OSError)) OSError).
  - split; reflexivity.
  - lia.
  - reflexivity.
  - discriminate.
  - discriminate.
Defined.



(** C6. Whenever the loader returns the empty list, the run prints the
    could-not-load message after the loader's own messages, ends normally and
    renders nothing; [create_province_map] on the empty list would itself
    print its warning and build a chart with no series. *)
Theorem empty_labels_end_the_run_without_rendering
    (w : World) (filename : str) (column_index : Z) (output : str) :
  snd (run [] (load_province_data w filename column_index)) = Ok [] ->
  run tt (main_with w filename column_index output) =
    (Print MsgStart ::
       fst (run [] (load_province_data w filename column_index)) ++
       [Print MsgNoDataExit; Print MsgDone],
     Ok tt) /\
  rendered (fst (run tt (main_with w filename column_index output))) = [] /\
  exists chart,
    run tt (create_province_map []) = ([Print MsgNoValidData], Ok chart) /\
    series chart = [].
Proof.
  intros Hempty.
  assert (Hmain : run tt (main_with w filename column_index output) =
                  (Print MsgStart ::
                     fst (run [] (load_province_data w filename column_index))
                     ++ [Print MsgNoDataExit; Print MsgDone],
                   Ok tt)).
  { unfold main_with, run at 1, bind, print, emit; simpl.
    rewrite call_load, Hempty; simpl.
    rewrite <- app_assoc; reflexivity. }
  split; [exact Hmain|]. split.
  - rewrite Hmain; simpl. rewrite rendered_app.
    rewrite (load_prints_only w filename column_index); reflexivity.
  - eexists; split; reflexivity.
Qed.

Lemma empty_labels_end_the_run_without_rendering_witness :
  run tt (main empty_world) =
    (Print MsgStart ::
       fst (run [] (load_province_data empty_world CSV_FILENAME
                      PROVINCE_COLUMN_INDEX)) ++
       [Print MsgNoDataExit; Print MsgDone],
     Ok tt) /\
  rendered (fst (run tt (main empty_world))) = [] /\
  exists chart,
    run tt (create_province_map []) = ([Print MsgNoValidData], Ok chart) /\
    series chart = [].
Proof.
  apply (@empty_labels_end_the_run_without_rendering
           empty_world CSV_FILENAME PROVINCE_COLUMN_INDEX OUTPUT_HTML_FILENAME).
  reflexivity.
Defined.

(** C7. Whatever the world, the path and the index, the loader returns a
    list, and every string in it is non-empty and has no white space at
    either end. *)
Theorem loader_output_is_labels
    (w : World) (filename : str) (column_index : Z) :
  exists l,
    snd (run [] (load_province_data w filename column_index)) = Ok l /\
    Forall is_label l.
Proof.
  unfold run.
  destruct (load_returns w filename column_index
              {| locals := []; out := [] |}) as (s' & E & H).
  rewrite E. exists (locals s'); split; [reflexivity | exact H].
Qed.

(** C8. On a file with header [省份, X] and data rows [京, A], [沪, B],
    [京, C], at index 0 the loader returns [京, 沪, 京]; on that list
    [create_province_map] builds the pairs (京, 2), (沪, 1), the scale bound
    is 2 and the renderer's [max_] is 3. *)
Theorem round_trip_scenario (w : World) (filename : str) :
  opens w filename (reader_of Sample.rows None) ->
  snd (run [] (load_province_data w filename 0)) =
    Ok [Sample.jing; Sample.hu; Sample.jing] /\
  exists chart,
    run tt (create_province_map [Sample.jing; Sample.hu; Sample.jing]) =
      ([], Ok chart) /\
    map data_pair (series chart) =
      [[(Sample.jing, 2%Z); (Sample.hu, 1%Z)]] /\
    max_count_of [(Sample.jing, 2%Z); (Sample.hu, 1%Z)] = Ok 2%Z /\
    option_map max_ (visualmap_opts chart) = Some 3%Z.
Proof.
  intros Hop. split.
  - rewrite (@load_opens 0%Z (Z.le_refl 0) w filename _ Hop); reflexivity.
  - eexists; repeat split; reflexivity.
Qed.

Lemma round_trip_scenario_witness :
  snd (run [] (load_province_data
                 (single_file CSV_FILENAME (reader_of Sample.rows None))
                 CSV_FILENAME 0)) =
    Ok [Sample.jing; Sample.hu; Sample.jing] /\
  exists chart,
    run tt (create_province_map [Sample.jing; Sample.hu; Sample.jing]) =
      ([], Ok chart) /\
    map data_pair (series chart) =
      [[(Sample.jing, 2%Z); (Sample.hu, 1%Z)]] /\
    max_count_of [(Sample.jing, 2%Z); (Sample.hu, 1%Z)] = Ok 2%Z /\
    option_map max_ (visualmap_opts chart) = Some 3%Z.
Proof.
  apply (@round_trip_scenario
           (single_file CSV_FILENAME (reader_of Sample.rows None))
           CSV_FILENAME).
  split; reflexivity.
Defined.

(** C9. The counter of a label sequence has exactly the labels of the
    sequence as keys, each once; every count is at least 1; the counts add up
    to the length of the sequence. *)
Theorem counter_keys_counts_and_total (l : list str) :
  (forall p, In p (keys (Counter l)) <-> In p l) /\
  NoDup (keys (Counter l)) /\
  Forall (fun c => (1 <= c)%Z) (values (Counter l)) /\
  sum (values (Counter l)) = Z.of_nat (length l).
Proof.
  split; [intros p; apply Counter_keys|].
  split; [apply Counter_NoDup|]. split.
  - apply Forall_forall. intros c Hc. unfold values in Hc.
    apply in_map_iff in Hc. destruct Hc as ([p c'] & <- & Hpc); simpl.
    apply Counter_entries in Hpc. destruct Hpc as [Hp ->].
    apply freq_pos, Hp.
  - unfold Counter. rewrite count_elements_sum; reflexivity.
Qed.


(** * Further properties *)

(** ** What [strip] removes and what it keeps *)

Lemma lstrip_split (s : str) : exists u, s = u ++ lstrip s /\ blank u.
Proof.
  induction s as [|x s (u & IH & Hu)]; simpl.
  - exists []; split; [reflexivity | constructor].
  - destruct (isspace x) eqn:E.
    + exists (x :: u); split; [simpl; congruence | constructor; assumption].
    + exists []; split; [reflexivity | constructor].
Qed.

Lemma blank_rev (s : str) : blank s -> blank (rev s).
Proof. unfold blank; intros H; apply Forall_rev; exact H. Qed.

Lemma rstrip_split (s : str) : exists v, s = rstrip s ++ v /\ blank v.
Proof.
  unfold rstrip. destruct (lstrip_split (rev s)) as (u & H & Hu).
  exists (rev u). split; [|apply blank_rev; exact Hu].
  rewrite <- rev_app_distr, <- H, rev_involutive; reflexivity.
Qed.

Lemma strip_split (s : str) :
  exists u v, s = u ++ strip s ++ v /\ blank u /\ blank v.
Proof.
  destruct (lstrip_split s) as (u & Hs & Hu).
  destruct (rstrip_split (lstrip s)) as (v & Hl & Hv).
  exists u, v. unfold strip. rewrite <- Hl. auto.
Qed.

Lemma lstrip_blank (s : str) : blank s -> lstrip s = [].
Proof.
  induction 1 as [|x s Hx _ IH]; simpl; [reflexivity|].
  rewrite Hx; exact IH.
Qed.

Lemma strip_blank (s : str) : blank s <-> strip s = [].
Proof.
  split.
  - intros H. unfold strip. rewrite (lstrip_blank H). reflexivity.
  - intros H. destruct (strip_split s) as (u & v & E & Hu & Hv).
    rewrite H in E; simpl in E. rewrite E. apply Forall_app; auto.
Qed.

Lemma lstrip_id (s : str) :
  (forall c t, s = c :: t -> isspace c = false) -> lstrip s = s.
Proof.
  destruct s as [|c t]; [reflexivity|]. intros H; simpl.
  rewrite (H c t eq_refl); reflexivity.
Qed.

Lemma strip_label (s : str) : is_label s -> strip s = s.
Proof.
  intros (Hne & Hhd & Hlast). unfold strip, rstrip.
  rewrite (lstrip_id Hhd). rewrite lstrip_id; [apply rev_involutive|].
  intros c t E. apply (Hlast (rev t) c).
  rewrite <- (rev_involutive s), E; reflexivity.
Qed.

(** ** The aggregator on any list *)

Lemma framed_create_province_map (l : list str) :
  framed (create_province_map l).
Proof.
  unfold create_province_map, items.
  destruct (Counter l); auto with framed.
Qed.

Lemma call_framed {L L' A} (init : L') (m : M L' A) (s : State L) :
  framed m ->
  call init m s =
  ({| locals := locals s; out := out s ++ fst (run init m) |},
   snd (run init m)).
Proof.
  intros Hm. unfold call, run. rewrite (Hm init (out s)).
  destruct (m {| locals := init; out := [] |}) as [[l1 o1] r]; reflexivity.
Qed.

Lemma Counter_empty_iff (l : list str) : Counter l = [] <-> l = [].
Proof.
  split; [|intros ->; reflexivity].
  intros E. destruct l as [|x l]; [reflexivity|].
  exfalso; apply (@Counter_nonempty (x :: l)); [discriminate | exact E].
Qed.

Lemma create_province_map_nonempty (l : list str) :
  l <> [] ->
  exists m,
    max_count_of (Counter l) = Ok m /\
    run tt (create_province_map l) =
    ([], Ok (Map_set_series_opts false
               (Map_set_global_opts
                  (Some {| title := MAP_TITLE; subtitle := Some MAP_SUBTITLE;
                           title_pos_left := Some Lit.center |})
                  (Some {| max_ := m + 1; is_piecewise := false;
                           pos_left := Lit.ten_percent;
                           pos_bottom := Lit.ten_percent |})
                  (Some {| trigger := Lit.item; formatter := Lit.b_colon_c |})
                  (Some false)
                  (Map_add {| series_name := SERIES_NAME;
                              data_pair := Counter l;
                              maptype := Lit.china;
                              is_map_symbol_show := false |}
                           Map_new)))).
Proof.
  intros Hl. pose proof (Counter_nonempty Hl) as Hne.
  destruct (max_count_of_spec Hne) as (m & Hm & _).
  exists m; split; [exact Hm|].
  unfold create_province_map, run, items, bind, lift, ret.
  destruct (Counter l) as [|kv d] eqn:E; [congruence|].
  rewrite Hm; reflexivity.
Qed.

(** X1. [create_province_map] returns a chart for every list and never
    raises: the [max] over no counts is never evaluated. It prints its warning
    exactly when the list is empty, and the chart has a series exactly when
    the list is not empty. *)
Theorem create_province_map_always_returns (l : list str) :
  exists log chart,
    run tt (create_province_map l) = (log, Ok chart) /\
    (log = [Print MsgNoValidData] <-> l = []) /\
    (log = [] <-> l <> []) /\
    (series chart = [] <-> l = []) /\
    (visualmap_opts chart = None <-> l = []).
Proof.
  destruct l as [|x l].
  - do 2 eexists; split; [reflexivity|].
    repeat split; intros; try reflexivity; try congruence; discriminate.
  - destruct (@create_province_map_nonempty (x :: l)) as (m & _ & E);
      [discriminate|].
    rewrite E. do 2 eexists; split; [reflexivity|].
    repeat split; intros; try reflexivity; try congruence; discriminate.
Qed.

Lemma sum_le_bound (xs : list Z) (m : Z) :
  Forall (fun y => (y <= m)%Z) xs -> (sum xs <= m * Z.of_nat (length xs))%Z.
Proof.
  induction 1 as [|x xs Hx _ IH]; simpl sum; simpl length; [lia|]. nia.
Qed.

(** X2. For a non-empty list the scale bound lies between 1 and the number
    of labels, and the number of labels is at most the bound times the number
    of pairs. *)
Theorem scale_bound_range (l : list str) :
  l <> [] ->
  exists bound,
    max_count_of (items (Counter l)) = Ok bound /\
    (1 <= bound <= Z.of_nat (length l))%Z /\
    (Z.of_nat (length l) <=
     bound * Z.of_nat (length (items (Counter l))))%Z.
Proof.
  intros Hl. unfold items.
  destruct (max_count_of_spec (Counter_nonempty Hl)) as (m & Hm & Hin & Hall).
  exists m; split; [exact Hm|].
  assert (Hsum : sum (values (Counter l)) = Z.of_nat (length l))
    by (unfold Counter; rewrite count_elements_sum; reflexivity).
  assert (Hm1 : (1 <= m)%Z).
  { unfold values in Hin. apply in_map_iff in Hin.
    destruct Hin as ([p c] & <- & Hpc); simpl.
    apply Counter_entries in Hpc. destruct Hpc as [Hp ->].
    apply freq_pos, Hp. }
  split; [split; [exact Hm1|]|].
  - unfold values in Hin. apply in_map_iff in Hin.
    destruct Hin as ([p c] & <- & Hpc); simpl.
    apply Counter_entries in Hpc. destruct Hpc as [_ ->].
    unfold freq. pose proof (count_occ_bound str_eq_dec p l). lia.
  - rewrite <- Hsum. pose proof (sum_le_bound Hall) as H.
    unfold values in H. rewrite length_map in H. exact H.
Qed.

Lemma scale_bound_range_witness :
  exists bound,
    max_count_of (items (Counter [Sample.jing; Sample.hu; Sample.jing])) =
      Ok bound /\
    (1 <= bound <= Z.of_nat (length [Sample.jing; Sample.hu; Sample.jing]))%Z /\
    (Z.of_nat (length [Sample.jing; Sample.hu; Sample.jing]) <=
     bound * Z.of_nat (length (items (Counter [Sample.jing; Sample.hu;
                                               Sample.jing]))))%Z.
Proof.
  apply (@scale_bound_range [Sample.jing; Sample.hu; Sample.jing]).
  discriminate.
Defined.

(** ** The order of the pairs *)

Lemma eqb_sym (a b : str) : Str.eqb a b = Str.eqb b a.
Proof.
  destruct (eqb_case a b) as [[-> E]|[N E]]; [reflexivity|].
  rewrite E; symmetry. apply eqb_neq; congruence.
Qed.

Lemma mem_In (ks : list str) (y : str) : mem ks y = true <-> In y ks.
Proof.
  unfold mem. rewrite existsb_exists. split.
  - intros (x & Hx & E). apply eqb_eq in E; subst; exact Hx.
  - intros H; exists y; split; [exact H | apply eqb_refl].
Qed.

Lemma mem_app (ks ks' : list str) (y : str) :
  mem (ks ++ ks') y = mem ks y || mem ks' y.
Proof. apply existsb_app. Qed.

Lemma filter_twice {A} (f g : A -> bool) (l : list A) :
  filter f (filter g l) = filter (fun y => g y && f y) l.
Proof.
  induction l as [|x l IH]; simpl; [reflexivity|].
  destruct (g x); simpl; [destruct (f x)|]; rewrite IH; reflexivity.
Qed.

Lemma count_elements_key_order (l : list str) :
  forall d,
    keys (count_elements d l) =
    keys d ++ filter (fun y => negb (mem (keys d) y)) (first_occurrences l).
Proof.
  induction l as [|x l IH]; intros d.
  - simpl; rewrite app_nil_r; reflexivity.
  - change (count_elements d (x :: l))
      with (count_elements (dict_set d x (dict_get d x 0 + 1)) l).
    rewrite IH. cbn [first_occurrences filter].
    destruct (mem (keys d) x) eqn:Hx; cbn [negb].
    + rewrite keys_set_in by (apply mem_In; exact Hx).
      f_equal. rewrite filter_twice. apply filter_ext. intros y.
      destruct (mem (keys d) y) eqn:Hy; [rewrite andb_false_r; reflexivity|].
      destruct (eqb_case x y) as [[-> _]|[_ E]]; [congruence|].
      rewrite E; reflexivity.
    + rewrite keys_set_notin
        by (intros H; apply mem_In in H; congruence).
      rewrite <- app_assoc; simpl. do 2 f_equal.
      rewrite filter_twice. apply filter_ext. intros y.
      rewrite mem_app; unfold mem at 2; simpl.
      rewrite orb_false_r, negb_orb, (eqb_sym y x), andb_comm; reflexivity.
Qed.

Lemma dict_as_map (d : dict) (dflt : Z) :
  NoDup (keys d) -> d = map (fun k => (k, dict_get d k dflt)) (keys d).
Proof.
  induction d as [|[k v] d IH]; intros ND; [reflexivity|].
  inversion ND as [|? ? Hk ND']; subst.
  simpl. rewrite eqb_refl. f_equal.
  rewrite (IH ND') at 1. apply map_ext_in. intros k' Hk'.
  destruct (eqb_case k k') as [[-> _]|[_ E]]; [contradiction|].
  rewrite E; reflexivity.
Qed.

Lemma filter_all {A} (f : A -> bool) (l : list A) :
  (forall x, f x = true) -> filter f l = l.
Proof.
  intros H. induction l as [|x l IH]; simpl; [reflexivity|].
  rewrite H, IH; reflexivity.
Qed.

(** X3. The pairs given to the chart are the distinct labels in the order of
    their first occurrence in the list, each with its number of
    occurrences. *)
Theorem pairs_in_first_occurrence_order (l : list str) :
  items (Counter l) = map (fun p => (p, freq l p)) (first_occurrences l).
Proof.
  unfold items.
  rewrite (@dict_as_map (Counter l) 0%Z (Counter_NoDup l)) at 1.
  unfold Counter at 2. rewrite count_elements_key_order.
  change (keys []) with (@nil str); cbn [app].
  rewrite filter_all by reflexivity.
  apply map_ext. intros p. rewrite Counter_get; reflexivity.
Qed.

(** ** Reordering the labels *)

Lemma freq_Permutation (l l' : list str) (p : str) :
  Permutation l l' -> freq l p = freq l' p.
Proof.
  intros H. unfold freq. f_equal.
  apply (proj1 (Permutation_count_occ str_eq_dec l l') H).
Qed.

Lemma Counter_Permutation (l l' : list str) :
  Permutation l l' -> Permutation (Counter l) (Counter l').
Proof.
  intros H. apply NoDup_Permutation;
    try (apply NoDup_keys_NoDup, Counter_NoDup).
  intros [p c]. rewrite !Counter_entries, (freq_Permutation p H).
  split; intros [Hp Hc]; split; auto.
  - apply (Permutation_in _ H); exact Hp.
  - apply (Permutation_in _ (Permutation_sym H)); exact Hp.
Qed.

Lemma max_count_of_Permutation (d d' : dict) :
  Permutation d d' -> max_count_of d = max_count_of d'.
Proof.
  intros H.
  destruct d as [|kv d].
  - apply Permutation_nil in H; subst; reflexivity.
  - assert (Hd' : d' <> [])
      by (intros ->; apply Permutation_sym, Permutation_nil in H; discriminate).
    destruct (@max_count_of_spec (kv :: d)) as (m & Hm & Hin & Hall);
      [discriminate|].
    destruct (max_count_of_spec Hd') as (m' & Hm' & Hin' & Hall').
    rewrite Hm, Hm'. f_equal.
    assert (Hv : Permutation (values (kv :: d)) (values d'))
      by (apply Permutation_map; exact H).
    rewrite Forall_forall in Hall, Hall'.
    pose proof (Hall' m (Permutation_in _ Hv Hin)).
    pose proof (Hall m' (Permutation_in _ (Permutation_sym Hv) Hin')).
    lia.
Qed.

(** X4. Reordering the labels changes neither what the chart shows nor its
    scale: the two pair lists are permutations of each other, the scale
    bounds agree, and the two charts differ at most in the order of the pairs
    of their series. *)
Theorem aggregation_ignores_label_order (l l' : list str) :
  Permutation l l' ->
  Permutation (items (Counter l)) (items (Counter l')) /\
  max_count_of (items (Counter l)) = max_count_of (items (Counter l')) /\
  exists log chart chart',
    run tt (create_province_map l) = (log, Ok chart) /\
    run tt (create_province_map l') = (log, Ok chart') /\
    title_opts chart = title_opts chart' /\
    visualmap_opts chart = visualmap_opts chart' /\
    Permutation (flat_map data_pair (series chart))
                (flat_map data_pair (series chart')).
Proof.
  intros H. pose proof (Counter_Permutation H) as HC.
  pose proof (max_count_of_Permutation HC) as HM.
  split; [exact HC|]. split; [exact HM|].
  destruct l as [|x l].
  - apply Permutation_nil in H; subst.
    do 3 eexists; repeat split; reflexivity.
  - assert (Hl' : l' <> [])
      by (intros ->; apply Permutation_sym, Permutation_nil in H; discriminate).
    destruct (@create_province_map_nonempty (x :: l)) as (m & Hm & E);
      [discriminate|].
    destruct (create_province_map_nonempty Hl') as (m' & Hm' & E').
    assert (m = m') by congruence; subst m'.
    rewrite E, E'. do 3 eexists.
    split; [reflexivity|]. split; [reflexivity|].
    split; [reflexivity|]. split; [reflexivity|].
    simpl. rewrite !app_nil_r. exact HC.
Qed.

Lemma aggregation_ignores_label_order_witness :
  Permutation (items (Counter [Sample.jing; Sample.hu; Sample.jing]))
              (items (Counter [Sample.hu; Sample.jing; Sample.jing])) /\
  max_count_of (items (Counter [Sample.jing; Sample.hu; Sample.jing])) =
  max_count_of (items (Counter [Sample.hu; Sample.jing; Sample.jing])) /\
  exists log chart chart',
    run tt (create_province_map [Sample.jing; Sample.hu; Sample.jing]) =
      (log, Ok chart) /\
    run tt (create_province_map [Sample.hu; Sample.jing; Sample.jing]) =
      (log, Ok chart') /\
    title_opts chart = title_opts chart' /\
    visualmap_opts chart = visualmap_opts chart' /\
    Permutation (flat_map data_pair (series chart))
                (flat_map data_pair (series chart')).
Proof.
  apply (@aggregation_ignores_label_order
           [Sample.jing; Sample.hu; Sample.jing]
           [Sample.hu; Sample.jing; Sample.jing]).
  apply perm_swap.
Defined.

(** ** The main block *)


Lemma main_with_empty (w : World) (filename : str) (ci : Z) (output : str) :
  snd (run [] (load_province_data w filename ci)) = Ok [] ->
  run tt (main_with w filename ci output) =
  (Print MsgStart :: fst (run [] (load_province_data w filename ci)) ++
     [Print MsgNoDataExit; Print MsgDone],
   Ok tt).
Proof.
  intros Hempty.
  unfold main_with, run at 1, bind, print, emit; simpl.
  rewrite call_load, Hempty; simpl.
  rewrite <- app_assoc; reflexivity.
Qed.

Lemma main_with_nonempty (w : World) (filename : str) (ci : Z) (output : str)
    (l : list str) (chart : MapChart) :
  snd (run [] (load_province_data w filename ci)) = Ok l -> l <> [] ->
  run tt (create_province_map l) = ([], Ok chart) ->
  run tt (main_with w filename ci output) =
  (Print MsgStart :: fst (run [] (load_province_data w filename ci)) ++
     [Print (MsgLoaded (length l)); Render chart output;
      Print (render_message w chart output); Print MsgDone],
   Ok tt).
Proof.
  intros Hload Hl Hchart.
  unfold main_with, run at 1, bind, print, emit; simpl.
  rewrite call_load, Hload; simpl.
  destruct l as [|x l]; [congruence|].
  rewrite (call_framed tt _ (framed_create_province_map (x :: l))).
  rewrite Hchart; simpl.
  unfold try_except, render, render_message, bind, emit, ret, raise; simpl.
  destruct (render_result w chart output); simpl;
    rewrite app_nil_r, <- !app_assoc; reflexivity.
Qed.

(** X5. When the loader returns a non-empty list, the run prints how many
    labels were loaded, hands [render] exactly one chart, the one
    [create_province_map] builds from that list, at the output path, then
    prints the saved message if [render] returned and the render-error message
    if it raised, and ends with the done message. *)
Theorem run_with_labels_renders_their_chart
    (w : World) (filename : str) (column_index : Z) (output : str)
    (l : list str) :
  snd (run [] (load_province_data w filename column_index)) = Ok l ->
  l <> [] ->
  exists chart,
    run tt (create_province_map l) = ([], Ok chart) /\
    run tt (main_with w filename column_index output) =
      (Print MsgStart ::
         fst (run [] (load_province_data w filename column_index)) ++
         [Print (MsgLoaded (length l)); Render chart output;
          Print (match render_result w chart output with
                 | None => MsgSaved (abspath w output)
                 | Some e => MsgRenderError e
                 end);
          Print MsgDone],
       Ok tt) /\
    rendered (fst (run tt (main_with w filename column_index output))) =
      [(chart, output)].
Proof.
  intros Hload Hl.
  destruct (create_province_map_nonempty Hl) as (m & _ & Hchart).
  eexists; split; [exact Hchart|].
  pose proof (@main_with_nonempty w filename column_index output _ _ Hload Hl Hchart) as Hmain.
  split; [exact Hmain|].
  rewrite Hmain; cbn [fst rendered]. rewrite rendered_app.
  rewrite (load_prints_only w filename column_index); reflexivity.
Qed.

Lemma run_with_labels_renders_their_chart_witness :
  exists chart,
    run tt (create_province_map [Sample.jing; Sample.hu; Sample.jing]) =
      ([], Ok chart) /\
    run tt (main_with
              (failing_render Sample.name (reader_of Sample.rows None) OSError)
              Sample.name 0 OUTPUT_HTML_FILENAME) =
      ([Print MsgStart;
        Print (MsgSkipHeader [Sample.shengfen; Sample.X]);
        Print (MsgLoaded 3); Render chart OUTPUT_HTML_FILENAME;
        Print (MsgRenderError OSError); Print MsgDone],
       Ok tt) /\
    rendered (fst (run tt (main_with
              (failing_render Sample.name (reader_of Sample.rows None) OSError)
              Sample.name 0 OUTPUT_HTML_FILENAME))) =
      [(chart, OUTPUT_HTML_FILENAME)].
Proof.
  apply (@run_with_labels_renders_their_chart
           (failing_render Sample.name (reader_of Sample.rows None) OSError)
           Sample.name 0%Z OUTPUT_HTML_FILENAME
           [Sample.jing; Sample.hu; Sample.jing]).
  - reflexivity.
  - discriminate.
Defined.


(** X7. When the path exists but [open] raises, the loader prints the
    message of the matching [except] clause (not found, decode error, or read
    error for anything else), returns the empty list, and the run renders
    nothing. *)
Theorem open_failure_gives_no_data
    (w : World) (filename : str) (column_index : Z) (output : str) (e : exn) :
  path_exists w filename = true -> open_file w filename = Raise e ->
  run [] (load_province_data w filename column_index) =
    ([Print (match e with
             | FileNotFoundError => MsgNotFound filename
             | UnicodeDecodeError => MsgDecodeError filename
             | _ => MsgReadError e
             end)], Ok []) /\
  rendered (fst (run tt (main_with w filename column_index output))) = [] /\
  In (Print MsgNoDataExit)
     (fst (run tt (main_with w filename column_index output))).
Proof.
  intros Hex Hop.
  pose proof (@load_open_fails w filename column_index e Hex Hop) as Hload.
  split; [exact Hload|].
  assert (Hempty : snd (run [] (load_province_data w filename column_index))
                   = Ok []) by (rewrite Hload; reflexivity).
  rewrite (@main_with_empty w filename column_index output Hempty), Hload.
  split; [destruct e; reflexivity|].
  simpl. right; right; left; reflexivity.
Qed.

Lemma open_failure_gives_no_data_witness :
  run [] (load_province_data (unopenable Sample.name PermissionError)
            Sample.name 3) =
    ([Print (MsgReadError PermissionError)], Ok []) /\
  rendered (fst (run tt (main_with (unopenable Sample.name PermissionError)
                           Sample.name 3 OUTPUT_HTML_FILENAME))) = [] /\
  In (Print MsgNoDataExit)
     (fst (run tt (main_with (unopenable Sample.name PermissionError)
                     Sample.name 3 OUTPUT_HTML_FILENAME))).
Proof.
  apply (@open_failure_gives_no_data
           (unopenable Sample.name PermissionError)
           Sample.name 3%Z OUTPUT_HTML_FILENAME PermissionError).
  - reflexivity.
  - reflexivity.
Defined.

(** ** More on the loader at a zero-based index *)

Lemma rows_of_reader_of (rows : list row) (stop : option exn) :
  rows_of (reader_of rows stop) = rows.
Proof.
  unfold reader_of. induction rows as [|r rows IH]; simpl.
  - destruct stop; reflexivity.
  - rewrite IH; reflexivity.
Qed.

Lemma failure_of_reader_of (rows : list row) (stop : option exn) :
  failure_of (reader_of rows stop) = stop.
Proof.
  unfold reader_of. induction rows as [|r rows IH]; simpl.
  - destruct stop; reflexivity.
  - exact IH.
Qed.

Lemma label_of_Some (i : nat) (r : row) (s : str) :
  label_of i r = Some s ->
  exists f, nth_error r i = Some f /\ s = strip f /\ s <> [].
Proof.
  unfold label_of. destruct (nth_error r i) as [f|]; [|discriminate].
  destruct (strip f) as [|c t] eqn:E; [discriminate|].
  intros H; injection H as <-. exists f; repeat split; congruence.
Qed.

Lemma labels_of_In (i : nat) (rows : list row) (s : str) :
  In s (labels_of i rows) -> exists r, In r rows /\ label_of i r = Some s.
Proof.
  induction rows as [|r rows IH]; simpl; [tauto|].
  destruct (label_of i r) as [s'|] eqn:E.
  - intros [<-|H].
    + exists r; auto.
    + destruct (IH H) as (r' & Hr' & E'); exists r'; auto.
  - intros H. destruct (IH H) as (r' & Hr' & E'); exists r'; auto.
Qed.

Lemma labels_of_length (i : nat) (rows : list row) :
  (length (labels_of i rows) <=
   length (filter (fun r => i <? length r)%nat rows))%nat.
Proof.
  induction rows as [|r rows IH]; simpl; [lia|].
  destruct (label_of i r) as [s|] eqn:E.
  - destruct (label_of_Some _ _ E) as (f & Hf & _).
    assert (i < length r)%nat
      by (apply nth_error_Some; congruence).
    replace (i <? length r)%nat with true
      by (symmetry; apply Nat.ltb_lt; assumption).
    simpl; lia.
  - destruct (i <? length r)%nat; simpl; lia.
Qed.

Lemma labels_of_blank (i : nat) (rows : list row) :
  Forall (fun r => forall f, nth_error r i = Some f -> blank f) rows ->
  labels_of i rows = [].
Proof.
  induction 1 as [|r rows Hr _ IH]; simpl; [reflexivity|].
  unfold label_of. destruct (nth_error r i) as [f|]; [|exact IH].
  rewrite (proj1 (strip_blank f) (Hr f eq_refl)); exact IH.
Qed.

Lemma labels_of_clean (i : nat) (rows : list row) (labels : list str) :
  Forall2 (fun r s => nth_error r i = Some s /\ is_label s) rows labels ->
  labels_of i rows = labels.
Proof.
  induction 1 as [|r s rows labels [Hn Hs] _ IH]; simpl; [reflexivity|].
  unfold label_of. rewrite Hn, (strip_label Hs).
  destruct s as [|c t]; [destruct Hs as [Hne _]; congruence|].
  rewrite IH; reflexivity.
Qed.

(** X8. At a zero-based index the loader returns at most one label per data
    row that has a field at the index, hence at most one per data row. *)
Theorem label_count_bounded_by_rows
    (w : World) (filename : str) (column_index : Z) (rd : reader) :
  opens w filename rd -> (0 <= column_index)%Z ->
  exists l,
    snd (run [] (load_province_data w filename column_index)) = Ok l /\
    (length l <=
     length (filter (fun r => Z.of_nat (length r) >? column_index)%Z
                    (tl (rows_of rd))))%nat /\
    (length l <= length (tl (rows_of rd)))%nat.
Proof.
  intros Hop Hci. rewrite (load_opens Hci Hop). eexists; split; [reflexivity|].
  assert (E : filter (fun r => Z.of_nat (length r) >? column_index)%Z
                     (tl (rows_of rd)) =
              filter (fun r => Z.to_nat column_index <? length r)%nat
                     (tl (rows_of rd))).
  { apply filter_ext. intros r.
    destruct (Z.gtb_spec (Z.of_nat (length r)) column_index);
      destruct (Nat.ltb_spec (Z.to_nat column_index) (length r));
      try reflexivity; lia. }
  split.
  - rewrite E. apply labels_of_length.
  - eapply Nat.le_trans; [apply labels_of_length | apply filter_length_le].
Qed.

Lemma label_count_bounded_by_rows_witness :
  exists l,
    snd (run [] (load_province_data
                   (single_file Sample.name (reader_of Sample.rows None))
                   Sample.name 1)) = Ok l /\
    (length l <=
     length (filter (fun r => Z.of_nat (length r) >? 1)%Z
                    (tl (rows_of (reader_of Sample.rows None)))))%nat /\
    (length l <= length (tl (rows_of (reader_of Sample.rows None))))%nat.
Proof.
  apply (@label_count_bounded_by_rows
           (single_file Sample.name (reader_of Sample.rows None))
           Sample.name 1%Z (reader_of Sample.rows None)).
  - split; reflexivity.
  - lia.
Defined.

(** X9. At a zero-based index every label the loader returns is the field at
    that index of some data row it read, with white space removed at the two
    ends and nothing else changed. *)
Theorem labels_are_trimmed_fields
    (w : World) (filename : str) (column_index : Z) (rd : reader) :
  opens w filename rd -> (0 <= column_index)%Z ->
  exists l,
    snd (run [] (load_province_data w filename column_index)) = Ok l /\
    forall s, In s l ->
      exists r f u v,
        In r (tl (rows_of rd)) /\
        nth_error r (Z.to_nat column_index) = Some f /\
        f = u ++ s ++ v /\ blank u /\ blank v.
Proof.
  intros Hop Hci. rewrite (load_opens Hci Hop). eexists; split; [reflexivity|].
  intros s Hs. destruct (labels_of_In _ _ _ Hs) as (r & Hr & E).
  destruct (label_of_Some _ _ E) as (f & Hf & -> & _).
  destruct (strip_split f) as (u & v & Hsplit & Hu & Hv).
  exists r, f, u, v; auto.
Qed.

Lemma labels_are_trimmed_fields_witness :
  exists l,
    snd (run [] (load_province_data
                   (single_file Sample.name (reader_of Sample.rows None))
                   Sample.name 0)) = Ok l /\
    forall s, In s l ->
      exists r f u v,
        In r (tl (rows_of (reader_of Sample.rows None))) /\
        nth_error r (Z.to_nat 0) = Some f /\
        f = u ++ s ++ v /\ blank u /\ blank v.
Proof.
  apply (@labels_are_trimmed_fields
           (single_file Sample.name (reader_of Sample.rows None))
           Sample.name 0%Z (reader_of Sample.rows None)).
  - split; reflexivity.
  - lia.
Defined.

(** X10. When every data row has, at the zero-based index, a field that is
    already a label (not empty, no white space at either end), the loader
    returns exactly those fields, one per data row and in row order, however
    the reader stops after them. *)
Theorem clean_fields_are_returned_verbatim
    (w : World) (filename : str) (column_index : Z)
    (header : row) (rows : list row) (stop : option exn)
    (labels : list str) :
  opens w filename (reader_of (header :: rows) stop) ->
  (0 <= column_index)%Z ->
  Forall2 (fun r s => nth_error r (Z.to_nat column_index) = Some s /\
                      is_label s) rows labels ->
  snd (run [] (load_province_data w filename column_index)) = Ok labels.
Proof.
  intros Hop Hci Hrows. rewrite (load_opens Hci Hop).
  rewrite rows_of_reader_of; simpl. f_equal.
  apply labels_of_clean; exact Hrows.
Qed.

Lemma is_label_singleton (c : char) : isspace c = false -> is_label [c].
Proof.
  intros Hc. repeat split.
  - discriminate.
  - intros c' t E; injection E as <- _; exact Hc.
  - intros [|x t] c' E; simpl in E.
    + injection E as <-; exact Hc.
    + injection E as _ E. destruct t; discriminate.
Qed.

Lemma clean_fields_are_returned_verbatim_witness :
  snd (run [] (load_province_data
                 (single_file Sample.name
                    (reader_of Sample.rows (Some csv_Error)))
                 Sample.name 0)) =
  Ok [Sample.jing; Sample.hu; Sample.jing].
Proof.
  apply (@clean_fields_are_returned_verbatim
           (single_file Sample.name (reader_of Sample.rows (Some csv_Error)))
           Sample.name 0%Z [Sample.shengfen; Sample.X]
           [[Sample.jing; Sample.A]; [Sample.hu; Sample.B];
            [Sample.jing; Sample.C]]
           (Some csv_Error)).
  - split; reflexivity.
  - lia.
  - repeat constructor; apply is_label_singleton; reflexivity.
Defined.

(** X11. When, at a zero-based index, every data row read is too short or
    has only white space in its field, the loader returns the empty list and
    the run prints its no-data message and renders nothing; a file with only
    a header row, or with no row at all, is such a file. *)
Theorem blank_fields_give_no_data
    (w : World) (filename : str) (column_index : Z) (output : str)
    (rd : reader) :
  opens w filename rd -> (0 <= column_index)%Z ->
  Forall (fun r => forall f, nth_error r (Z.to_nat column_index) = Some f ->
                             blank f) (tl (rows_of rd)) ->
  snd (run [] (load_province_data w filename column_index)) = Ok [] /\
  rendered (fst (run tt (main_with w filename column_index output))) = [] /\
  In (Print MsgNoDataExit)
     (fst (run tt (main_with w filename column_index output))).
Proof.
  intros Hop Hci Hblank.
  assert (Hempty : snd (run [] (load_province_data w filename column_index))
                   = Ok []).
  { rewrite (load_opens Hci Hop); simpl. rewrite (@labels_of_blank _ _ Hblank).
    reflexivity. }
  split; [exact Hempty|].
  rewrite (@main_with_empty w filename column_index output Hempty).
  cbn [fst rendered]. rewrite rendered_app.
  rewrite (load_prints_only w filename column_index). split; [reflexivity|].
  right. apply in_or_app; right; left; reflexivity.
Qed.

Lemma blank_fields_give_no_data_witness :
  let rd := reader_of [[Sample.shengfen; Sample.X];
                       [[0x20; 0x3000]%N; Sample.A];
                       [];
                       [[]; Sample.B]] None in
  snd (run [] (load_province_data (single_file Sample.name rd)
                 Sample.name 0)) = Ok [] /\
  rendered (fst (run tt (main_with (single_file Sample.name rd)
                           Sample.name 0 OUTPUT_HTML_FILENAME))) = [] /\
  In (Print MsgNoDataExit)
     (fst (run tt (main_with (single_file Sample.name rd)
                     Sample.name 0 OUTPUT_HTML_FILENAME))).
Proof.
  intros rd.
  apply (@blank_fields_give_no_data
           (single_file Sample.name rd) Sample.name 0%Z
           OUTPUT_HTML_FILENAME rd).
  - split; reflexivity.
  - lia.
  - repeat constructor; simpl; intros f E; try discriminate;
      injection E as <-; repeat constructor.
Defined.

(** ** The loader at a negative index *)

Section NegativeIndex.

Variable ci : Z.
Hypothesis ci_neg : (ci < 0)%Z.

Let k : nat := Z.to_nat (- ci).

Lemma loop_body_from_end (r : row) (s : State (list str)) :
  (k <= length r)%nat ->
  loop_body ci r s =
  ({| locals := locals s ++ match label_from_end k r with
                            | Some x => [x]
                            | None => []
                            end;
      out := out s |}, Ok tt).
Proof.
  intros Hlen. unfold loop_body, label_from_end, label_of, getitem.
  replace (Z.of_nat (length r) >? ci)%Z with true
    by (symmetry; apply Z.gtb_lt; lia).
  replace (0 <=? ci)%Z with false by (symmetry; apply Z.leb_gt; lia).
  replace (ci <? 0)%Z with true by (symmetry; apply Z.ltb_lt; lia).
  replace (- Z.of_nat (length r) <=? ci)%Z with true
    by (symmetry; apply Z.leb_le; subst k; lia).
  cbn [andb].
  replace (Z.to_nat (Z.of_nat (length r) + ci)) with (length r - k)%nat
    by (subst k; lia).
  destruct (nth_error r (length r - k)) as [f|] eqn:E.
  - unfold bind, lift, get, put, ret; simpl.
    destruct (strip f); simpl; [|reflexivity].
    destruct s; simpl; rewrite app_nil_r; reflexivity.
  - apply nth_error_None in E. subst k; lia.
Qed.

Lemma loop_body_too_short (r : row) (s : State (list str)) :
  (length r < k)%nat -> loop_body ci r s = (s, Raise IndexError).
Proof.
  intros Hlen. unfold loop_body, getitem.
  replace (Z.of_nat (length r) >? ci)%Z with true
    by (symmetry; apply Z.gtb_lt; lia).
  replace (0 <=? ci)%Z with false by (symmetry; apply Z.leb_gt; lia).
  replace (- Z.of_nat (length r) <=? ci)%Z with false
    by (symmetry; apply Z.leb_gt; subst k; lia).
  rewrite andb_false_r. reflexivity.
Qed.

Lemma for_rows_from_end (rows : list row) (rest : reader) :
  Forall (fun r => (k <= length r)%nat) rows ->
  forall s,
    for_rows (fold_right RRow rest rows) (loop_body ci) s =
    for_rows rest (loop_body ci)
      {| locals := locals s ++ labels_from_end k rows; out := out s |}.
Proof.
  induction 1 as [|r rows Hr _ IH]; intros s.
  - simpl. destruct s; simpl; rewrite app_nil_r; reflexivity.
  - cbn [fold_right for_rows]. unfold bind at 1.
    rewrite (@loop_body_from_end r s Hr), IH; cbn [locals out labels_from_end].
    destruct (label_from_end k r); rewrite <- app_assoc; reflexivity.
Qed.

Lemma load_after_header (w : World) (filename : str) (h : row)
    (rest : reader) (s' : State (list str)) (r : result unit) :
  opens w filename (RRow h rest) ->
  for_rows rest (loop_body ci) {| locals := []; out := header_events h |}
  = (s', r) ->
  run [] (load_province_data w filename ci) =
  (out s' ++ match r with
             | Ok _ => []
             | Raise e => [Print (report filename e)]
             end,
   Ok (locals s')).
Proof.
  intros [Hex Hop] Hloop.
  unfold run, load_province_data, bind, put, try_except, lift, get.
  rewrite Hex, Hop; simpl.
  assert (E : match h with
              | [] => ret tt
              | _ :: _ => print (MsgSkipHeader h)
              end {| locals := @nil str; out := [] |} =
              ({| locals := []; out := header_events h |}, Ok tt))
    by (destruct h; reflexivity).
  rewrite E, Hloop.
  destruct r as [[]|e]; simpl; [rewrite app_nil_r; reflexivity|].
  destruct e; reflexivity.
Qed.

(** X12. With a negative index the length guard always passes and the field
    is counted from the end of the row. While every data row has at least
    [-index] fields the loader collects their labels; at the first data row
    with fewer fields (a blank line, say) [row[index]] raises [IndexError],
    which the loader reports as a read error, and it returns only the labels
    of the rows before that one: the later rows are never read. *)
Theorem negative_index_stops_at_short_row
    (w : World) (filename : str)
    (header : row) (before : list row) (short : row) (after : list row)
    (stop : option exn) :
  opens w filename (reader_of (header :: before ++ short :: after) stop) ->
  Forall (fun r => (Z.to_nat (- ci) <= length r)%nat) before ->
  (length short < Z.to_nat (- ci))%nat ->
  run [] (load_province_data w filename ci) =
  (header_events header ++ [Print (MsgReadError IndexError)],
   Ok (labels_from_end (Z.to_nat (- ci)) before)).
Proof.
  intros Hop Hbefore Hshort.
  unfold reader_of in Hop. cbn [fold_right] in Hop.
  rewrite fold_right_app in Hop. cbn [fold_right] in Hop.
  refine (@load_after_header w filename header _
            {| locals := _; out := _ |} (Raise IndexError) Hop _).
  rewrite (@for_rows_from_end before _ Hbefore). cbn [for_rows locals out].
  unfold bind. rewrite (@loop_body_too_short short _ Hshort). reflexivity.
Qed.

(** X13. With a negative index, when every data row has at least [-index]
    fields the loader returns the labels of the fields counted from the end
    of each row, in row order. *)
Theorem negative_index_counts_from_end
    (w : World) (filename : str) (header : row) (rows : list row) :
  opens w filename (reader_of (header :: rows) None) ->
  Forall (fun r => (Z.to_nat (- ci) <= length r)%nat) rows ->
  run [] (load_province_data w filename ci) =
  (header_events header, Ok (labels_from_end (Z.to_nat (- ci)) rows)).
Proof.
  intros Hop Hrows.
  unfold reader_of in Hop. cbn [fold_right] in Hop.
  rewrite <- (app_nil_r (header_events header)).
  refine (@load_after_header w filename header _
            {| locals := _; out := _ |} (Ok tt) Hop _).
  rewrite (@for_rows_from_end rows _ Hrows). reflexivity.
Qed.

End NegativeIndex.

Lemma negative_index_stops_at_short_row_witness :
  run [] (load_province_data
            (single_file Sample.name
               (reader_of ([Sample.shengfen; Sample.X] ::
                           [[Sample.jing; Sample.A]] ++
                           [] :: [[Sample.hu; Sample.B]]) None))
            Sample.name (-1)) =
  ([Print (MsgSkipHeader [Sample.shengfen; Sample.X]);
    Print (MsgReadError IndexError)],
   Ok [Sample.A]).
Proof.
  apply (@negative_index_stops_at_short_row (-1)%Z ltac:(lia)
           (single_file Sample.name
              (reader_of ([Sample.shengfen; Sample.X] ::
                          [[Sample.jing; Sample.A]] ++
                          [] :: [[Sample.hu; Sample.B]]) None))
           Sample.name [Sample.shengfen; Sample.X]
           [[Sample.jing; Sample.A]] [] [[Sample.hu; Sample.B]] None).
  - split; reflexivity.
  - repeat constructor.
  - simpl; lia.
Defined.

Lemma negative_index_counts_from_end_witness :
  run [] (load_province_data
            (single_file Sample.name (reader_of Sample.rows None))
            Sample.name (-2)) =
  ([Print (MsgSkipHeader [Sample.shengfen; Sample.X])],
   Ok [Sample.jing; Sample.hu; Sample.jing]).
Proof.
  apply (@negative_index_counts_from_end (-2)%Z ltac:(lia)
           (single_file Sample.name (reader_of Sample.rows None))
           Sample.name [Sample.shengfen; Sample.X]
           [[Sample.jing; Sample.A]; [Sample.hu; Sample.B];
            [Sample.jing; Sample.C]]).
  - split; reflexivity.
  - repeat constructor.
Defined.
